(** * The path codec of the usage-event editor

    A shallow embedding of [flatten_dict], [set_nested_value] and
    [get_nested_value] from [agentic_billing_usage_script.py], and the
    properties of the flat view and of path-addressed reads and writes.

    Python values are a tagged tree, dictionaries are insertion-ordered
    association lists, in-place mutation is modelled by returning the object
    as it is after the call, and exceptions are an explicit outcome.
    Text is a [string] whose characters are the code points below 256. *)

From Stdlib Require Import String Ascii List Bool Arith NArith ZArith Lia.
From Stdlib Require Import DecimalString DecimalN.
From Stdlib Require Import SpecFloat.
From Stdlib Require Import Permutation.
Import ListNotations.

#[local] Open Scope string_scope.
#[local] Open Scope list_scope.

(** ** Text *)

Module Text.

(** [c in s] for a one-character [c]. *)
Fixpoint has_char (c : ascii) (s : string) : bool :=
  match s with
  | EmptyString => false
  | String a s' => Ascii.eqb a c || has_char c s'
  end.

(** [s.replace(c, '')] for a one-character [c]. *)
Fixpoint remove_char (c : ascii) (s : string) : string :=
  match s with
  | EmptyString => EmptyString
  | String a s' =>
      if Ascii.eqb a c then remove_char c s' else String a (remove_char c s')
  end.

(** [s.split(c)] for a one-character separator: the pieces between the
    occurrences of [c], empty pieces included, never the empty list. *)
Fixpoint split (c : ascii) (s : string) : list string :=
  match s with
  | EmptyString => [EmptyString]
  | String a s' =>
      if Ascii.eqb a c then EmptyString :: split c s'
      else match split c s' with
           | [] => [String a EmptyString]
           | piece :: pieces => String a piece :: pieces
           end
  end.

(** Truth value of a string: non-empty. *)
Definition truthy (s : string) : bool :=
  match s with EmptyString => false | String _ _ => true end.

(** The characters [str.isdigit] accepts among the code points below 256:
    the ten decimal digits and the superscripts one, two and three. *)
Definition decimal_char (c : ascii) : bool :=
  let n := nat_of_ascii c in ((48 <=? n) && (n <=? 57))%nat.

Definition digit_char (c : ascii) : bool :=
  let n := nat_of_ascii c in
  decimal_char c || (n =? 178)%nat || (n =? 179)%nat || (n =? 185)%nat.

Fixpoint all_chars (p : ascii -> bool) (s : string) : bool :=
  match s with
  | EmptyString => true
  | String a s' => p a && all_chars p s'
  end.

(** [s.isdigit()]: at least one character, all of them digits. *)
Definition isdigit (s : string) : bool := truthy s && all_chars digit_char s.

(** [int(s)] for a string that passed [isdigit]: the decimal value, and
    [None] (a ValueError) when a superscript digit occurs.  The limit the
    runtime may put on the number of digits is not modelled. *)
Definition int_of_digits (s : string) : option N :=
  option_map N.of_uint (NilEmpty.uint_of_string s).

(** [str(n)] for a non-negative integer. *)
Definition str_of_N (n : N) : string := NilZero.string_of_uint (N.to_uint n).

Definition str_of_nat (i : nat) : string := str_of_N (N.of_nat i).

End Text.

(** ** Values *)

(** Dictionary keys.  A document read from JSON has string keys only;
    [set_nested_value] indexes with [int(key)] for a digit segment, so a
    dictionary it has written to may also hold integer keys. *)
Inductive key : Type :=
| KStr (s : string)
| KInt (n : N).

Definition key_eqb (a b : key) : bool :=
  match a, b with
  | KStr s, KStr t => String.eqb s t
  | KInt n, KInt m => N.eqb n m
  | _, _ => false
  end.

(** [f"{k}"] *)
Definition key_text (k : key) : string :=
  match k with
  | KStr s => s
  | KInt n => Text.str_of_N n
  end.

(** A binary64 number, as the sign, mantissa and exponent record of the
    standard library. *)
Definition float : Type := spec_float.

#[local] Unset Elimination Schemes.
Inductive value : Type :=
| VNone
| VBool (b : bool)
| VInt (z : Z)
| VFloat (f : float)
| VStr (s : string)
| VList (l : list value)
| VDict (d : list (key * value)).
#[local] Set Elimination Schemes.

Definition dict : Type := list (key * value).

(** [isinstance(v, (int, float))]; [bool] is a subclass of [int]. *)
Definition is_number (v : value) : bool :=
  match v with
  | VBool _ | VInt _ | VFloat _ => true
  | _ => false
  end.

Definition is_scalar (v : value) : bool :=
  match v with
  | VList _ | VDict _ => false
  | _ => true
  end.

(** ** Ordered dictionaries *)

Section Assoc.
Context {K V : Type} (eqb : K -> K -> bool).

Fixpoint assoc_get (k : K) (d : list (K * V)) : option V :=
  match d with
  | [] => None
  | (k', v) :: d' => if eqb k k' then Some v else assoc_get k d'
  end.

(** [d[k] = v]: an existing key keeps its place, a new one goes last. *)
Fixpoint assoc_set (k : K) (v : V) (d : list (K * V)) : list (K * V) :=
  match d with
  | [] => [(k, v)]
  | (k', v') :: d' =>
      if eqb k k' then (k', v) :: d' else (k', v') :: assoc_set k v d'
  end.

(** [dict(items)] *)
Definition assoc_of_items (items : list (K * V)) : list (K * V) :=
  fold_left (fun d kv => assoc_set (fst kv) (snd kv) d) items [].
End Assoc.

Definition dict_get : key -> dict -> option value := assoc_get key_eqb.
Definition dict_set : key -> value -> dict -> dict := assoc_set key_eqb.

(** The flat view: a dictionary from path to value. *)
Definition flat_view : Type := list (key * value).

Definition flat_of_items : list (key * value) -> flat_view :=
  assoc_of_items key_eqb.

(** ** Exceptions *)

Inductive exn : Type :=
| KeyError
| IndexError
| TypeError
| ValueError
| AttributeError.

Inductive outcome (A : Type) : Type :=
| Return (a : A)
| Raise (e : exn).

Arguments Return {A} a.
Arguments Raise {A} e.

(** ** flatten_dict *)

(** Truth value of a path so far: a non-empty string, or a non-zero
    integer once an integer key has become the path. *)
Definition key_truthy (k : key) : bool :=
  match k with
  | KStr s => Text.truthy s
  | KInt n => negb (N.eqb n 0)
  end.

(** [f"{new_key}[{i}]"] *)
Definition index_path (new_key : key) (i : nat) : key :=
  KStr (key_text new_key ++ "[" ++ Text.str_of_nat i ++ "]").

(** [f"{parent_key}{sep}{k}" if parent_key else k]: under an empty path
    the key itself is the path, whatever its type. *)
Definition child_path (parent_key : key) (sep : string) (k : key) : key :=
  if key_truthy parent_key
  then KStr (key_text parent_key ++ sep ++ key_text k)
  else k.

Definition bind {A B : Type} (m : outcome A) (f : A -> outcome B)
  : outcome B :=
  match m with
  | Return a => f a
  | Raise e => Raise e
  end.

Section FlattenBody.
(** The recursive call [flatten_dict(_, _, sep=sep).items()]. *)
Variable recur : value -> key -> outcome (list (key * value)).

(** One turn of [for i, item in enumerate(v)]. *)
Definition flatten_item (new_key : key) (i : nat) (item : value)
  : outcome (list (key * value)) :=
  match item with
  | VDict _ => recur item (index_path new_key i)
  | _ => Return [(index_path new_key i, item)]
  end.

(** [for i, item in enumerate(v)], from index [i] on. *)
Fixpoint flatten_enumerate (new_key : key) (i : nat) (v : list value)
  : outcome (list (key * value)) :=
  match v with
  | [] => Return []
  | item :: v' =>
      bind (flatten_item new_key i item) (fun found =>
      bind (flatten_enumerate new_key (S i) v') (fun more =>
      Return (found ++ more)))
  end.

(** The three branches on the value of one entry. *)
Definition flatten_entry (new_key : key) (v : value)
  : outcome (list (key * value)) :=
  match v with
  | VDict _ => recur v new_key
  | VList l => flatten_enumerate new_key 0 l
  | _ => Return [(new_key, v)]
  end.

(** [for k, v in d.items()] *)
Fixpoint flatten_items (parent_key : key) (sep : string) (d : dict)
  : outcome (list (key * value)) :=
  match d with
  | [] => Return []
  | (k, v) :: d' =>
      bind (flatten_entry (child_path parent_key sep k) v) (fun found =>
      bind (flatten_items parent_key sep d') (fun more =>
      Return (found ++ more)))
  end.
End FlattenBody.

(** [d.items()] raises AttributeError unless [d] is a dictionary; the
    result is [dict(items)]. *)
Fixpoint flatten_dict (d : value) (parent_key : key) (sep : string)
  {struct d}
  : outcome flat_view :=
  match d with
  | VDict entries =>
      bind (flatten_items (fun d' pk => flatten_dict d' pk sep)
              parent_key sep entries)
           (fun items => Return (flat_of_items items))
  | _ => Raise AttributeError
  end.

(** The call [flatten_dict(event)], with the default arguments. *)
Definition flatten (doc : value) : outcome flat_view :=
  flatten_dict doc (KStr "") ".".

(** ** Paths *)

(** [keys = path.replace(']', '').split('[')] then
    [[k for part in keys for k in part.split('.') if k]]. *)
Definition path_keys (path : string) : list string :=
  filter Text.truthy
    (flat_map (Text.split ".") (Text.split "[" (Text.remove_char "]" path))).

(** [key = int(key) if key.isdigit() else key] *)
Definition resolve (k : string) : outcome key :=
  if Text.isdigit k then
    match Text.int_of_digits k with
    | Some n => Return (KInt n)
    | None => Raise ValueError
    end
  else Return (KStr k).

(** [current[key]] as an expression. *)
Definition subscript (current : value) (k : key) : outcome value :=
  match current, k with
  | VDict d, _ =>
      match dict_get k d with Some v => Return v | None => Raise KeyError end
  | VList l, KInt n =>
      match nth_error l (N.to_nat n) with
      | Some v => Return v
      | None => Raise IndexError
      end
  | VList _, KStr _ => Raise TypeError
  | VStr s, KInt n =>
      match String.get (N.to_nat n) s with
      | Some c => Return (VStr (String c EmptyString))
      | None => Raise IndexError
      end
  | _, _ => Raise TypeError
  end.

(** ** get_nested_value *)

Fixpoint get_keys (keys : list string) (current : value) : outcome value :=
  match keys with
  | [] => Return current
  | key :: keys' =>
      match resolve key with
      | Raise e => Raise e
      | Return k =>
          match subscript current k with
          | Raise e => Raise e
          | Return child => get_keys keys' child
          end
      end
  end.

Definition get_nested_value (d : value) (path : string) : outcome value :=
  get_keys (path_keys path) d.

(** ** set_nested_value *)

(** [l[n] = x] for an index in range. *)
Fixpoint list_set (n : nat) (x : value) (l : list value) : list value :=
  match l, n with
  | [], _ => []
  | _ :: l', O => x :: l'
  | y :: l', S n' => y :: list_set n' x l'
  end.

(** [current[key] = x] as a statement: the object afterwards. *)
Definition store (current : value) (k : key) (x : value) : outcome value :=
  match current, k with
  | VDict d, _ => Return (VDict (dict_set k x d))
  | VList l, KInt n =>
      if (N.to_nat n <? length l)%nat
      then Return (VList (list_set (N.to_nat n) x l))
      else Raise IndexError
  | _, _ => Raise TypeError
  end.

(** [[] if next_key.isdigit() else {}] *)
Definition fresh (next_key : string) : value :=
  if Text.isdigit next_key then VList [] else VDict [].

(** The [else] branch of the walk, [if key not in current: current[key] =
    ...], as the object afterwards.  On anything but a dictionary one of the
    membership test, the assignment and the subscript that follows raises
    TypeError, with the object unchanged. *)
Definition vivify (current : value) (k : key) (next_key : string)
  : outcome value :=
  match current with
  | VDict d =>
      match dict_get k d with
      | Some _ => Return current
      | None => Return (VDict (dict_set k (fresh next_key) d))
      end
  | _ => Raise TypeError
  end.

(** The child reached by [current = current[key]] is mutated in place: the
    parent sees it as it is after the rest of the call. *)
Definition put_back (current : value) (k : key) (child : value) : value :=
  match current, k with
  | VDict d, _ => VDict (dict_set k child d)
  | VList l, KInt n => VList (list_set (N.to_nat n) child l)
  | _, _ => current
  end.

Section Runtime.
(** [int(s)] and [float(s)] of the Python runtime on a string, [None]
    when they raise. *)
Variable int_of_str : string -> option Z.
Variable float_of_str : string -> option float.

(** [try: value = float(value) if '.' in value else int(value)]
    [except: pass] on the argument [value].  One that is not a string
    makes the test or the
    conversion raise a TypeError, which the bare [except] swallows. *)
Definition coerce (val : value) : value :=
  match val with
  | VStr s =>
      match (if Text.has_char "." s
             then option_map VFloat (float_of_str s)
             else option_map VInt (int_of_str s)) with
      | Some number => number
      | None => val
      end
  | _ => val
  end.

(** The walk over [keys[:-1]] and the write at [keys[-1]]: the object
    [current] as the call leaves it, and how the call ends. *)
Fixpoint set_keys (keys : list string) (current : value) (val : value)
  {struct keys} : value * outcome unit :=
  match keys with
  | [] => (current, Raise IndexError)
  | [last_key] =>
      match resolve last_key with
      | Raise e => (current, Raise e)
      | Return k =>
          match subscript current k with
          | Raise e => (current, Raise e)
          | Return old =>
              let val' := if is_number old then coerce val else val in
              match store current k val' with
              | Raise e => (current, Raise e)
              | Return current' => (current', Return tt)
              end
          end
      end
  | key :: (next_key :: _) as rest =>
      match resolve key with
      | Raise e => (current, Raise e)
      | Return k =>
          match (match current with
                 | VList _ => Return current
                 | _ => vivify current k next_key
                 end) with
          | Raise e => (current, Raise e)
          | Return current' =>
              match subscript current' k with
              | Raise e => (current', Raise e)
              | Return child =>
                  let (child', how) := set_keys rest child val in
                  (put_back current' k child', how)
              end
          end
      end
  end.

Definition set_nested_value (d : value) (path : string) (val : value)
  : value * outcome unit :=
  set_keys (path_keys path) d val.

(** Re-applying the entries of a flat view one after the other, as far
    as the first exception.  A path that is an integer has no [replace]:
    AttributeError. *)
Fixpoint set_all (d : value) (entries : flat_view) : value * outcome unit :=
  match entries with
  | [] => (d, Return tt)
  | (KStr path, v) :: entries' =>
      match set_nested_value d path v with
      | (d', Return _) => set_all d' entries'
      | (d', Raise e) => (d', Raise e)
      end
  | (KInt _, _) :: _ => (d, Raise AttributeError)
  end.
End Runtime.

(** ** A runtime for the examples

    Decimal literals as [int] and [float] read them: an optional sign and
    digits, with one point for [float].  The runtime of Python accepts more
    (blanks around, underscores, exponents); the theorems below hold for any
    runtime and only the examples are run with this one. *)
Module Literal.

Definition signed (s : string) : bool * string :=
  match s with
  | String "-" s' => (true, s')
  | String "+" s' => (false, s')
  | _ => (false, s)
  end.

Definition digits (s : string) : option N :=
  if Text.truthy s then Text.int_of_digits s else None.

Definition int_of_str (s : string) : option Z :=
  let (neg, body) := signed s in
  match digits body with
  | Some n => Some (if neg then (- Z.of_N n)%Z else Z.of_N n)
  | None => None
  end.

(** The quotient of two positive integers, rounded to the nearest
    binary64, ties to even. *)
Definition ratio (neg : bool) (m : N) (den : positive) : float :=
  match m with
  | N0 => S754_zero neg
  | Npos p => SFdiv 53 1024 (S754_finite neg p 0) (S754_finite false den 0)
  end.

Definition float_of_str (s : string) : option float :=
  let (neg, body) := signed s in
  match Text.split "." body with
  | [whole; frac] =>
      if Text.truthy (whole ++ frac) then
        match Text.int_of_digits (whole ++ frac) with
        | Some m =>
            let scale := Z.to_pos (10 ^ Z.of_nat (String.length frac)) in
            Some (ratio neg m scale)
        | None => None
        end
      else None
  | _ => None
  end.

End Literal.

(** ** The document as a tree *)

(** The node of the tree at an address: by key in a dictionary, by
    position in a list, nowhere below a scalar. *)
Fixpoint node_at (addr : list key) (v : value) : option value :=
  match addr with
  | [] => Some v
  | k :: addr' =>
      match v, k with
      | VDict d, _ =>
          match dict_get k d with
          | Some child => node_at addr' child
          | None => None
          end
      | VList l, KInt n =>
          match nth_error l (N.to_nat n) with
          | Some child => node_at addr' child
          | None => None
          end
      | _, _ => None
      end
  end.

(** The address the segments of a path stand for. *)
Fixpoint address (keys : list string) : option (list key) :=
  match keys with
  | [] => Some []
  | key :: keys' =>
      match resolve key, address keys' with
      | Return k, Some addr => Some (k :: addr)
      | _, _ => None
      end
  end.

Definition prefix_of (a b : list key) : Prop := exists rest, b = a ++ rest.

(** A dictionary as JSON has it: every key a string. *)
Definition str_keyed (d : dict) : bool :=
  forallb (fun kv => match fst kv with KStr _ => true | KInt _ => false end) d.

(** The ways a segment cannot be followed from a node: a key the object
    lacks, an index past the end of the array, a key on an array, an index
    on an object. *)
Inductive unresolvable : value -> string -> Prop :=
| absent_key entries k :
    Text.isdigit k = false -> dict_get (KStr k) entries = None ->
    unresolvable (VDict entries) k
| index_out_of_range l k :
    Text.isdigit k = true ->
    (forall n, Text.int_of_digits k = Some n -> (length l <= N.to_nat n)%nat) ->
    unresolvable (VList l) k
| key_on_array l k :
    Text.isdigit k = false -> unresolvable (VList l) k
| index_on_object entries k :
    Text.isdigit k = true -> str_keyed entries = true ->
    unresolvable (VDict entries) k.

(** ** The leaves of a document *)

(** The scalar leaves, counted over the whole tree. *)
Fixpoint leaves (v : value) : nat :=
  match v with
  | VDict entries => list_sum (map (fun kv => leaves (snd kv)) entries)
  | VList l => list_sum (map leaves l)
  | _ => 1
  end.

(** No list is an element of a list. *)
Fixpoint flat_lists (v : value) : bool :=
  match v with
  | VDict entries => forallb (fun kv => flat_lists (snd kv)) entries
  | VList l =>
      forallb (fun item =>
                 match item with
                 | VList _ => false
                 | _ => flat_lists item
                 end) l
  | _ => true
  end.

(** The keys of every dictionary are pairwise distinct, as in any
    dictionary of Python. *)
Fixpoint distinct_keys (d : dict) : bool :=
  match d with
  | [] => true
  | (k, _) :: d' =>
      negb (existsb (fun kv => key_eqb k (fst kv)) d') && distinct_keys d'
  end.

Fixpoint well_formed (v : value) : bool :=
  match v with
  | VDict entries =>
      distinct_keys entries && forallb (fun kv => well_formed (snd kv)) entries
  | VList l => forallb well_formed l
  | _ => true
  end.

(** Text that survives the path grammar as one segment: not empty and
    free of the point and of the two brackets. *)
Definition clean (s : string) : bool :=
  Text.truthy s && negb (Text.has_char "." s)
  && negb (Text.has_char "[" s) && negb (Text.has_char "]" s).

(** A key the path grammar reads back as a key: clean text that is not
    all digits. *)
Definition plain_key (k : key) : bool :=
  match k with
  | KStr s => clean s && negb (Text.isdigit s)
  | KInt _ => false
  end.

Fixpoint plain (v : value) : bool :=
  match v with
  | VDict entries =>
      forallb (fun kv => plain_key (fst kv) && plain (snd kv)) entries
  | VList l => forallb plain l
  | _ => true
  end.

(** *** The flat view by segments *)

Inductive seg : Type :=
| SKey (name : string)
| SIdx (i : nat).

Definition seg_text (s : seg) : string :=
  match s with
  | SKey name => name
  | SIdx i => Text.str_of_nat i
  end.

Definition seg_key (s : seg) : key :=
  match s with
  | SKey name => KStr name
  | SIdx i => KInt (N.of_nat i)
  end.

(** The text of the path one segment further, with the point as the
    separator. *)
Definition extend (prefix : string) (s : seg) : string :=
  match s with
  | SKey name => if Text.truthy prefix then prefix ++ "." ++ name else name
  | SIdx i => prefix ++ "[" ++ Text.str_of_nat i ++ "]"
  end.

Definition render (prefix : string) (segs : list seg) : string :=
  fold_left extend segs prefix.

(** A segment the path grammar reads back as it was written. *)
Definition good_seg (s : seg) : bool :=
  match s with
  | SKey name => plain_key (KStr name)
  | SIdx _ => true
  end.

Definition good_segs (segs : list seg) : Prop :=
  Forall (fun s => good_seg s = true) segs.

Definition under (s : seg) (entry : list seg * value) : list seg * value :=
  (s :: fst entry, snd entry).

Section LeafPathsBody.
Variable recur : value -> list (list seg * value).

(** An element of a list: a dictionary is entered, anything else is an
    entry of its own. *)
Definition element_paths (item : value) : list (list seg * value) :=
  match item with
  | VDict _ => recur item
  | _ => [([], item)]
  end.

Definition item_paths (i : nat) (item : value) : list (list seg * value) :=
  map (under (SIdx i)) (element_paths item).

Fixpoint enumerate_paths (i : nat) (l : list value)
  : list (list seg * value) :=
  match l with
  | [] => []
  | item :: l' => item_paths i item ++ enumerate_paths (S i) l'
  end.

Definition entry_paths (v : value) : list (list seg * value) :=
  match v with
  | VDict _ => recur v
  | VList l => enumerate_paths 0 l
  | _ => [([], v)]
  end.

Fixpoint items_paths (d : dict) : list (list seg * value) :=
  match d with
  | [] => []
  | (k, v) :: d' =>
      map (under (SKey (key_text k))) (entry_paths v) ++ items_paths d'
  end.
End LeafPathsBody.

(** The entries [flatten_dict] visits, each with the segments that lead
    to it. *)
Fixpoint leaf_paths (d : value) : list (list seg * value) :=
  match d with
  | VDict entries => items_paths leaf_paths entries
  | _ => []
  end.

Definition rendered (prefix : string) (entries : list (list seg * value))
  : flat_view :=
  map (fun entry => (KStr (render prefix (fst entry)), snd entry)) entries.

(** *** Keys that keep paths apart *)

(** Text that stands in a path as the one name it is: not empty, and
    free of the point and of the opening bracket, the two characters
    with which the next segment begins. *)
Definition legible (s : string) : bool :=
  Text.truthy s && negb (Text.has_char "." s) && negb (Text.has_char "[" s).

Definition legible_key (k : key) : bool :=
  match k with
  | KStr s => legible s
  | KInt _ => false
  end.

Fixpoint legible_keys (v : value) : bool :=
  match v with
  | VDict entries =>
      forallb (fun kv => legible_key (fst kv) && legible_keys (snd kv))
              entries
  | VList l => forallb legible_keys l
  | _ => true
  end.

Definition legible_seg (s : seg) : bool :=
  match s with
  | SKey name => legible name
  | SIdx _ => true
  end.

Definition legible_segs (segs : list seg) : Prop :=
  Forall (fun s => legible_seg s = true) segs.

(** What a segment adds to a path that is not empty. *)
Definition seg_piece (s : seg) : string :=
  match s with
  | SKey name => "." ++ name
  | SIdx i => "[" ++ Text.str_of_nat i ++ "]"
  end.

Fixpoint pieces (segs : list seg) : string :=
  match segs with
  | [] => EmptyString
  | s :: segs' => seg_piece s ++ pieces segs'
  end.

(** The characters that begin a segment, and the one that ends an
    index. *)
Definition opener (c : ascii) : bool := Ascii.eqb c "." || Ascii.eqb c "[".

Definition closer (c : ascii) : bool := Ascii.eqb c "]".

(** Text that is empty or begins with a character of [stop]. *)
Definition headed (stop : ascii -> bool) (s : string) : bool :=
  match s with
  | EmptyString => true
  | String c _ => stop c
  end.

(** ** Documents of the examples *)

Module Sample.

Definition set_nested_value :=
  set_nested_value Literal.int_of_str Literal.float_of_str.

Definition quantity_path : string := "data.meters[0].quantity".

(** [{"data": {"meters": [{"quantity": q}]}}] *)
Definition quantity_doc (q : value) : value :=
  VDict [(KStr "data",
          VDict [(KStr "meters", VList [VDict [(KStr "quantity", q)]])])].

(** 3.5 as a binary64: 7 * 2^50 * 2^-51. *)
Definition three_and_a_half : float :=
  S754_finite false 7881299347898368 (-51).

(** [{"data": {"service": s}}] *)
Definition service_doc (s : value) : value :=
  VDict [(KStr "data", VDict [(KStr "service", s)])].

(** [{"flag": b}] *)
Definition flag_doc (b : value) : value := VDict [(KStr "flag", b)].

(** [{"meters": [{"quantity": 1}, {"quantity": 2}]}] *)
Definition meters_doc : value :=
  VDict [(KStr "meters",
          VList [VDict [(KStr "quantity", VInt 1)];
                 VDict [(KStr "quantity", VInt 2)]])].

(** [{"a": [[1, 2]]}] *)
Definition nested_list_doc : value :=
  VDict [(KStr "a", VList [VList [VInt 1; VInt 2]])].

(** [{"a.b": 1}] *)
Definition dotted_key_doc : value := VDict [(KStr "a.b", VInt 1)].

Definition set_all := set_all Literal.int_of_str Literal.float_of_str.

End Sample.

(** ** Paths without a segment *)

(** The characters the path grammar takes away: the point and the two
    brackets. *)
Definition separator (c : ascii) : bool :=
  Ascii.eqb c "." || Ascii.eqb c "[" || Ascii.eqb c "]".

(** ** Event identifiers *)

(** [chars = '0123456789ABCDEFGHIJKLMNOPQRSTUVWXYZ'] *)
Definition chars : string := "0123456789ABCDEFGHIJKLMNOPQRSTUVWXYZ".

(** [chars[remainder]]; the remainder of a division by 36 is an index of
    [chars], the character for anything else is never asked for. *)
Definition chars_at (remainder : Z) : ascii :=
  match String.get (Z.to_nat remainder) chars with
  | Some c => c
  | None => "0"%char
  end.

(** The loop [while num: num, remainder = divmod(num, 36); result =
    chars[remainder] + result], run for at most [fuel] turns: [None] when
    the turns do not suffice. *)
Fixpoint to_base36_loop (fuel : nat) (num : Z) (result : string)
  : option string :=
  if (num =? 0)%Z then Some result
  else match fuel with
       | O => None
       | S fuel' =>
           let (quotient, remainder) := Z.div_eucl num 36 in
           to_base36_loop fuel' quotient (String (chars_at remainder) result)
       end.

(** [to_base36(num)], with [return result or '0']. *)
Definition to_base36 (fuel : nat) (num : Z) : option string :=
  match to_base36_loop fuel num EmptyString with
  | Some result => Some (if Text.truthy result then result else "0")
  | None => None
  end.

(** The value of a character of [chars] as a digit. *)
Definition digit36 (c : ascii) : option Z :=
  let n := Z.of_nat (nat_of_ascii c) in
  if ((48 <=? n) && (n <=? 57))%Z then Some (n - 48)%Z
  else if ((65 <=? n) && (n <=? 90))%Z then Some (n - 55)%Z
  else None.

(** The number a string of such digits writes in base 36, read from the
    left on top of [acc]. *)
Fixpoint value36_from (acc : Z) (s : string) : option Z :=
  match s with
  | EmptyString => Some acc
  | String c s' =>
      match digit36 c with
      | Some d => value36_from (36 * acc + d) s'
      | None => None
      end
  end.

Definition value36 (s : string) : option Z := value36_from 0 s.

(** [s.upper()] on text of the basic Latin alphabet. *)
Definition upper_char (c : ascii) : ascii :=
  let n := nat_of_ascii c in
  if ((97 <=? n) && (n <=? 122))%nat then ascii_of_nat (n - 32) else c.

Fixpoint upper (s : string) : string :=
  match s with
  | EmptyString => EmptyString
  | String c s' => String (upper_char c) (upper s')
  end.

(** [generate_event_id()], given the clock reading
    [int(datetime.now(timezone.utc).timestamp() * 1000)] and the ten
    characters drawn by [random.choices]: the first 26 characters of
    [f"01JKQ{timestamp_b36}{random_str}"]. *)
Definition generate_event_id (fuel : nat) (timestamp : Z)
  (random_str : string) : option string :=
  match to_base36 fuel timestamp with
  | Some b36 =>
      Some (substring 0 26 ("01JKQ" ++ upper b36 ++ random_str))
  | None => None
  end.

(** The key as shown after it has been typed:
    ['*' * max(0, len(k) - 4) + k[-4:] if len(k) > 4 else '*' * len(k)]. *)
Fixpoint stars (n : nat) : string :=
  match n with
  | O => EmptyString
  | S n' => String "*" (stars n')
  end.

Definition masked_key (api_key : string) : string :=
  let n := String.length api_key in
  if (4 <? n)%nat then stars (n - 4) ++ substring (n - 4) 4 api_key
  else stars n.

(** The key in the banner every run prints:
    ['*' * (len(API_KEY) - 4) + API_KEY[-4:]], with no test of the
    length; a count below zero gives no star, and the slice [[-4:]] of a
    key of fewer than four characters is the key. *)
Definition banner_key (api_key : string) : string :=
  let n := String.length api_key in
  stars (n - 4) ++ substring (n - 4) 4 api_key.

(** ** The numbered list of the editing session *)

(** [path.split('.')[0] if '.' in path else 'root']; the test [in] asks
    for a path that is a string. *)
Definition category_of (path : key) : outcome string :=
  match path with
  | KStr s =>
      Return (if Text.has_char "." s
              then hd EmptyString (Text.split "." s)
              else "root")
  | KInt _ => Raise TypeError
  end.

(** One turn of the grouping loop: [categories[category] = []] for a
    category not met before, then
    [categories[category].append((path, value))]. *)
Definition add_field (category : string) (field : key * value)
  (categories : list (string * list (key * value)))
  : list (string * list (key * value)) :=
  let fields := match assoc_get String.eqb category categories with
                | Some fields => fields
                | None => []
                end in
  assoc_set String.eqb category (fields ++ [field]) categories.

Fixpoint group_fields (items : list (key * value))
  (categories : list (string * list (key * value)))
  : outcome (list (string * list (key * value))) :=
  match items with
  | [] => Return categories
  | (path, val) :: items' =>
      bind (category_of path)
           (fun category =>
              group_fields items' (add_field category (path, val) categories))
  end.

(** [sorted(categories.items())]: the categories are the keys of a
    dictionary, no two are equal, so the pairs are ordered by the names
    alone, code point by code point. *)
Fixpoint insert_category (c : string * list (key * value))
  (categories : list (string * list (key * value)))
  : list (string * list (key * value)) :=
  match categories with
  | [] => [c]
  | c' :: rest =>
      if String.leb (fst c) (fst c') then c :: categories
      else c' :: insert_category c rest
  end.

Definition sorted (categories : list (string * list (key * value)))
  : list (string * list (key * value)) :=
  fold_right insert_category [] categories.

(** The display loop: [path_to_num[field_num] = path] and
    [field_num += 1], field after field. *)
Fixpoint number_fields (field_num : nat) (fields : list (key * value))
  : list (nat * key) :=
  match fields with
  | [] => []
  | (path, _) :: fields' =>
      (field_num, path) :: number_fields (S field_num) fields'
  end.

(** [path_to_num] as [edit_event_value] has it when it asks for a
    choice. *)
Definition path_to_num (flat : flat_view) : outcome (list (nat * key)) :=
  bind (group_fields flat [])
       (fun categories =>
          Return (number_fields 1 (flat_map snd (sorted categories)))).

(** ** Event templates *)

(** [create_ai_chat_usage()], given [PROVIDER], the two identifiers drawn
    by [generate_event_id] and the three readings of the clock, in the
    order the dictionary display evaluates them. *)
Definition create_ai_chat_usage
  (provider event_id time usage_event_id usage_start usage_end : string)
  : value :=
  VDict
    [(KStr "id", VStr event_id);
     (KStr "specversion", VStr "1.0");
     (KStr "type", VStr "ai.agenticbilling.usage.v1");
     (KStr "source", VStr (provider ++ "/usage"));
     (KStr "time", VStr time);
     (KStr "datacontenttype", VStr "application/json");
     (KStr "data",
      VDict
        [(KStr "id", VStr ("usage-ai-" ++ usage_event_id));
         (KStr "service", VStr "ai.chat");
         (KStr "operation", VStr "chat.completion");
         (KStr "resourceId", VStr "/ai/models/gpt-4");
         (KStr "usageStart", VStr usage_start);
         (KStr "usageEnd", VStr usage_end);
         (KStr "meters",
          VList
            [VDict [(KStr "meterId", VStr "chat.input_tokens");
                    (KStr "quantity", VInt 1500);
                    (KStr "unit", VStr "tokens")];
             VDict [(KStr "meterId", VStr "chat.output_tokens");
                    (KStr "quantity", VInt 750);
                    (KStr "unit", VStr "tokens")];
             VDict [(KStr "meterId", VStr "chat.requests");
                    (KStr "quantity", VInt 1);
                    (KStr "unit", VStr "requests")]]);
         (KStr "dimensions",
          VDict [(KStr "model", VStr "gpt-4");
                 (KStr "temperature", VStr "0.7");
                 (KStr "max_tokens", VStr "2000")]);
         (KStr "tags",
          VDict [(KStr "project", VStr "customer-support-bot");
                 (KStr "environment", VStr "production")]);
         (KStr "tenantId", VStr "org/acme");
         (KStr "userId", VStr "user:42");
         (KStr "projectId", VStr "project/alpha")])].

(** * Properties *)

(** ** Induction on values *)

Lemma value_ind (P : value -> Prop) :
  P VNone ->
  (forall b, P (VBool b)) ->
  (forall z, P (VInt z)) ->
  (forall f, P (VFloat f)) ->
  (forall s, P (VStr s)) ->
  (forall l, Forall P l -> P (VList l)) ->
  (forall d, Forall (fun kv => P (snd kv)) d -> P (VDict d)) ->
  forall v, P v.
Proof.
  intros HNone HBool HInt HFloat HStr HList HDict.
  fix IH 1.
  intros [ | b | z | f | s | l | d ].
  - exact HNone.
  - apply HBool.
  - apply HInt.
  - apply HFloat.
  - apply HStr.
  - apply HList.
    induction l as [ | x l IHl ]; constructor; [ apply IH | exact IHl ].
  - apply HDict.
    induction d as [ | [k x] d IHd ]; constructor; [ apply IH | exact IHd ].
Qed.

(** ** Ordered dictionaries and lists *)

Lemma key_eqb_eq a b : key_eqb a b = true <-> a = b.
Proof.
  destruct a as [s | n], b as [t | m]; simpl;
    rewrite ?String.eqb_eq, ?N.eqb_eq; split; congruence.
Qed.

Lemma key_eqb_refl a : key_eqb a a = true.
Proof. now apply key_eqb_eq. Qed.

Lemma key_eqb_neq a b : a <> b -> key_eqb a b = false.
Proof.
  intros H. destruct (key_eqb a b) eqn:E; auto.
  apply key_eqb_eq in E. contradiction.
Qed.

Section AssocFacts.
Context {K V : Type} (eqb : K -> K -> bool).
Hypothesis eqb_eq : forall a b, eqb a b = true <-> a = b.

Lemma assoc_get_set_same k v (d : list (K * V)) :
  assoc_get eqb k (assoc_set eqb k v d) = Some v.
Proof.
  induction d as [ | [k' v'] d IH ]; simpl.
  - now rewrite (proj2 (eqb_eq k k) eq_refl).
  - destruct (eqb k k') eqn:E; simpl; rewrite E; auto.
Qed.

Lemma assoc_get_set_other k k' v (d : list (K * V)) :
  k <> k' -> assoc_get eqb k' (assoc_set eqb k v d) = assoc_get eqb k' d.
Proof.
  intros Hne. induction d as [ | [k0 v0] d IH ]; simpl.
  - destruct (eqb k' k) eqn:E; auto.
    apply eqb_eq in E. congruence.
  - destruct (eqb k k0) eqn:E; simpl.
    + apply eqb_eq in E. subst k0.
      destruct (eqb k' k) eqn:E'; auto.
      apply eqb_eq in E'. congruence.
    + destruct (eqb k' k0); auto.
Qed.

Lemma assoc_set_present k v (d : list (K * V)) :
  assoc_get eqb k d = Some v -> assoc_set eqb k v d = d.
Proof.
  induction d as [ | [k' v'] d IH ]; simpl; try discriminate.
  destruct (eqb k k'); intros H.
  - congruence.
  - now rewrite IH.
Qed.

Lemma assoc_set_twice k v w (d : list (K * V)) :
  assoc_set eqb k v (assoc_set eqb k w d) = assoc_set eqb k v d.
Proof.
  induction d as [ | [k' v'] d IH ]; simpl.
  - now rewrite (proj2 (eqb_eq k k) eq_refl).
  - destruct (eqb k k') eqn:E; simpl; rewrite E; congruence.
Qed.
End AssocFacts.

Lemma dict_get_set_same k v d : dict_get k (dict_set k v d) = Some v.
Proof. apply assoc_get_set_same, key_eqb_eq. Qed.

Lemma dict_get_set_other k k' v d :
  k <> k' -> dict_get k' (dict_set k v d) = dict_get k' d.
Proof. apply assoc_get_set_other, key_eqb_eq. Qed.

Lemma dict_set_present k v d : dict_get k d = Some v -> dict_set k v d = d.
Proof. apply assoc_set_present. Qed.

Lemma dict_set_twice k v w d :
  dict_set k v (dict_set k w d) = dict_set k v d.
Proof. apply assoc_set_twice, key_eqb_eq. Qed.

Lemma list_set_length n x l : length (list_set n x l) = length l.
Proof.
  revert n. induction l as [ | y l IH ]; intros [ | n]; simpl; auto.
Qed.

Lemma nth_error_list_set_same n x l :
  (n < length l)%nat -> nth_error (list_set n x l) n = Some x.
Proof.
  revert n. induction l as [ | y l IH ]; intros [ | n] H; simpl in *;
    try lia; auto.
  apply IH. lia.
Qed.

Lemma nth_error_list_set_other n m x l :
  n <> m -> nth_error (list_set n x l) m = nth_error l m.
Proof.
  revert n m. induction l as [ | y l IH ]; intros [ | n] [ | m] H; simpl;
    auto; try congruence.
Qed.

Lemma list_set_present n x l : nth_error l n = Some x -> list_set n x l = l.
Proof.
  revert n. induction l as [ | y l IH ]; intros [ | n] H; simpl in *;
    try discriminate; try congruence.
  now rewrite IH.
Qed.

Lemma list_set_twice n x y l :
  list_set n x (list_set n y l) = list_set n x l.
Proof.
  revert n. induction l as [ | z l IH ]; intros [ | n]; simpl; auto.
  now rewrite IH.
Qed.

(** ** Subscripts and stores *)

Lemma subscript_store d k x d' :
  store d k x = Return d' -> subscript d' k = Return x.
Proof.
  destruct d as [ | | | | | l | entries ], k as [name | n]; simpl;
    try discriminate.
  - destruct (N.to_nat n <? length l)%nat eqn:E; try discriminate.
    intros [= <-]. simpl.
    apply Nat.ltb_lt in E. now rewrite nth_error_list_set_same.
  - intros [= <-]. simpl. now rewrite dict_get_set_same.
  - intros [= <-]. simpl. now rewrite dict_get_set_same.
Qed.

Lemma store_twice d k x d' :
  store d k x = Return d' -> store d' k x = Return d'.
Proof.
  destruct d as [ | | | | | l | entries ], k as [name | n]; simpl;
    try discriminate.
  - destruct (N.to_nat n <? length l)%nat eqn:E; try discriminate.
    intros [= <-]. simpl.
    now rewrite list_set_length, E, list_set_twice.
  - intros [= <-]. simpl. now rewrite dict_set_twice.
  - intros [= <-]. simpl. now rewrite dict_set_twice.
Qed.

Lemma store_present d k x :
  subscript d k = Return x -> is_scalar d = false -> store d k x = Return d.
Proof.
  destruct d as [ | | | | | l | entries ], k as [name | n]; simpl;
    try discriminate.
  - destruct (nth_error l (N.to_nat n)) eqn:E; try discriminate.
    intros [= ->] _.
    assert (N.to_nat n < length l)%nat as Hlt
      by (apply nth_error_Some; congruence).
    apply Nat.ltb_lt in Hlt. rewrite Hlt.
    now rewrite list_set_present.
  - destruct (dict_get (KStr name) entries) eqn:E; try discriminate.
    intros [= ->] _. now rewrite dict_set_present.
  - destruct (dict_get (KInt n) entries) eqn:E; try discriminate.
    intros [= ->] _. now rewrite dict_set_present.
Qed.

(** A store succeeds wherever the subscript reads a container's item. *)
Lemma store_after_subscript d k old x :
  subscript d k = Return old -> is_scalar d = false ->
  exists d', store d k x = Return d'.
Proof.
  destruct d as [ | | | | | l | entries ], k as [name | n]; simpl;
    try discriminate; eauto.
  destruct (nth_error l (N.to_nat n)) eqn:E; try discriminate.
  intros _ _.
  assert (N.to_nat n < length l)%nat as Hlt
    by (apply nth_error_Some; congruence).
  apply Nat.ltb_lt in Hlt. rewrite Hlt. eauto.
Qed.

Lemma subscript_put_back d k child child' :
  subscript d k = Return child -> is_scalar d = false ->
  subscript (put_back d k child') k = Return child'.
Proof.
  destruct d as [ | | | | | l | entries ], k as [name | n]; simpl;
    try discriminate.
  - destruct (nth_error l (N.to_nat n)) eqn:E; try discriminate.
    intros _ _.
    assert (N.to_nat n < length l)%nat as Hlt
      by (apply nth_error_Some; congruence).
    now rewrite nth_error_list_set_same.
  - intros _ _. now rewrite dict_get_set_same.
  - intros _ _. now rewrite dict_get_set_same.
Qed.

Lemma put_back_twice d k child child' :
  put_back (put_back d k child) k child' = put_back d k child'.
Proof.
  destruct d as [ | | | | | l | entries ], k as [name | n]; simpl; auto.
  - now rewrite list_set_twice.
  - now rewrite dict_set_twice.
  - now rewrite dict_set_twice.
Qed.

Lemma put_back_present d k child :
  subscript d k = Return child -> put_back d k child = d.
Proof.
  destruct d as [ | | | | | l | entries ], k as [name | n]; simpl; auto.
  - destruct (nth_error l (N.to_nat n)) eqn:E; try discriminate.
    intros [= ->]. now rewrite list_set_present.
  - destruct (dict_get (KStr name) entries) eqn:E; try discriminate.
    intros [= ->]. now rewrite dict_set_present.
  - destruct (dict_get (KInt n) entries) eqn:E; try discriminate.
    intros [= ->]. now rewrite dict_set_present.
Qed.

Lemma vivify_dict current k next_key current' :
  vivify current k next_key = Return current' ->
  exists entries, current = VDict entries /\ is_scalar current' = false.
Proof.
  destruct current as [ | | | | | l | entries ]; simpl; try discriminate.
  intros H. exists entries. split; auto.
  destruct (dict_get k entries); injection H as <-; reflexivity.
Qed.

Lemma vivify_present entries k next_key child :
  dict_get k entries = Some child ->
  vivify (VDict entries) k next_key = Return (VDict entries).
Proof. simpl. now intros ->. Qed.

(** ** Addresses *)

Lemma node_at_step k addr d node :
  node_at (k :: addr) d = Some node ->
  exists child,
    subscript d k = Return child /\
    node_at addr child = Some node /\
    is_scalar d = false /\
    forall next_key,
      match d with
      | VList _ => Return d
      | _ => vivify d k next_key
      end = Return d.
Proof.
  simpl.
  destruct d as [ | | | | | l | entries ]; try discriminate.
  - destruct k as [name | n]; try discriminate.
    destruct (nth_error l (N.to_nat n)) as [child | ] eqn:E; try discriminate.
    intros H. exists child. simpl. rewrite E. auto.
  - destruct (dict_get k entries) as [child | ] eqn:E; try discriminate.
    intros H. exists child. simpl. rewrite E. auto.
Qed.

Lemma node_at_child k addr d child :
  subscript d k = Return child -> is_scalar d = false ->
  node_at (k :: addr) d = node_at addr child.
Proof.
  destruct d as [ | | | | | l | entries ]; try discriminate; simpl.
  - destruct k as [name | n]; try discriminate.
    destruct (nth_error l (N.to_nat n)); congruence.
  - destruct (dict_get k entries); congruence.
Qed.

Lemma node_at_put_back k addr d child child' :
  subscript d k = Return child -> is_scalar d = false ->
  node_at (k :: addr) (put_back d k child') = node_at addr child'.
Proof.
  intros Sub Hc.
  apply node_at_child.
  - eapply subscript_put_back; eauto.
  - destruct d as [ | | | | | l | entries ]; try discriminate;
      destruct k; reflexivity.
Qed.

Lemma key_int_inj n m : N.to_nat n = N.to_nat m -> n = m.
Proof. apply N2Nat.inj. Qed.

(** A write at key [k] leaves the other keys of the node alone. *)
Lemma node_at_put_back_other k q addr d child :
  q <> k -> node_at (q :: addr) (put_back d k child) = node_at (q :: addr) d.
Proof.
  intros Hne.
  destruct d as [ | | | | | l | entries ], k as [name | n]; simpl; auto.
  - destruct q as [name' | m]; auto.
    rewrite nth_error_list_set_other; auto.
    intros E. apply key_int_inj in E. congruence.
  - unfold dict_get, dict_set.
    rewrite assoc_get_set_other; auto using key_eqb_eq.
  - unfold dict_get, dict_set.
    rewrite assoc_get_set_other; auto using key_eqb_eq.
Qed.

Lemma node_at_store_other k q addr d x d' :
  store d k x = Return d' -> q <> k ->
  node_at (q :: addr) d' = node_at (q :: addr) d.
Proof.
  intros St Hne.
  destruct d as [ | | | | | l | entries ], k as [name | n]; simpl in St;
    try discriminate.
  - destruct (N.to_nat n <? length l)%nat; try discriminate.
    injection St as <-.
    apply (node_at_put_back_other (KInt n) q addr (VList l) x Hne).
  - injection St as <-.
    apply (node_at_put_back_other (KStr name) q addr (VDict entries) x Hne).
  - injection St as <-.
    apply (node_at_put_back_other (KInt n) q addr (VDict entries) x Hne).
Qed.

Lemma node_at_vivify_other k q addr d next_key d' :
  match d with
  | VList _ => Return d
  | _ => vivify d k next_key
  end = Return d' ->
  q <> k -> node_at (q :: addr) d' = node_at (q :: addr) d.
Proof.
  intros W Hne.
  destruct d as [ | | | | | l | entries ]; simpl in W; try discriminate.
  - now injection W as <-.
  - destruct (dict_get k entries).
    + now injection W as <-.
    + injection W as <-.
      apply (node_at_put_back_other k q addr (VDict entries) _ Hne).
Qed.

Lemma node_at_below_fresh q addr next_key :
  node_at (q :: addr) (fresh next_key) = None.
Proof.
  unfold fresh. destruct (Text.isdigit next_key); simpl; auto.
  destruct q as [name | n]; auto.
  now destruct (N.to_nat n).
Qed.

(** Every proper prefix of the address of a node is a container. *)
Lemma node_at_prefix_container pre :
  forall rest d x,
    node_at (pre ++ rest) d = Some x -> rest <> [] ->
    exists c, node_at pre d = Some c /\ is_scalar c = false.
Proof.
  induction pre as [ | k pre IH ]; intros rest d x H Hr.
  - destruct rest as [ | q rest ]; try congruence.
    exists d. split; auto.
    destruct (node_at_step _ _ _ _ H) as (_ & _ & _ & Hc & _). exact Hc.
  - change ((k :: pre) ++ rest) with (k :: (pre ++ rest)) in H.
    destruct (node_at_step _ _ _ _ H) as (child & Sub & Hn & Hc & _).
    destruct (IH _ _ _ Hn Hr) as (c & Hn' & Hc').
    exists c. split; auto.
    now rewrite (node_at_child _ _ _ _ Sub Hc).
Qed.

Lemma node_at_get keys :
  forall target d x,
    address keys = Some target -> node_at target d = Some x ->
    get_keys keys d = Return x.
Proof.
  induction keys as [ | key keys IH ]; intros target d x Ha Hn.
  - injection Ha as <-. now injection Hn as <-.
  - simpl in Ha. simpl.
    destruct (resolve key) as [k | ]; try discriminate.
    destruct (address keys) as [target' | ]; try discriminate.
    injection Ha as <-.
    destruct (node_at_step _ _ _ _ Hn) as (child & -> & Hn' & _ & _).
    eauto.
Qed.

Lemma get_keys_in_text keys :
  forall s x, get_keys keys (VStr s) = Return x -> is_number x = false.
Proof.
  induction keys as [ | key keys IH ]; intros s x; simpl.
  - now intros [= <-].
  - destruct (resolve key) as [[name | n] | ]; simpl; try discriminate.
    destruct (get (N.to_nat n) s); try discriminate.
    apply IH.
Qed.

(** A number read by [get_nested_value] is a node of the tree. *)
Lemma get_number_node keys :
  forall d old,
    get_keys keys d = Return old -> is_number old = true ->
    exists target, address keys = Some target /\ node_at target d = Some old.
Proof.
  induction keys as [ | key keys IH ]; intros d old; simpl.
  - intros [= <-] _. exists []. auto.
  - destruct (resolve key) as [k | ]; try discriminate.
    destruct (subscript d k) as [child | ] eqn:Sub; try discriminate.
    intros G Hnum.
    destruct (IH _ _ G Hnum) as (target' & -> & Hn).
    exists (k :: target'). split; auto.
    destruct (is_scalar d) eqn:Hc.
    + destruct d, k; simpl in Sub; try discriminate.
      destruct (get (N.to_nat n) s); try discriminate.
      injection Sub as <-.
      apply get_keys_in_text in G. congruence.
    + now rewrite (node_at_child _ _ _ _ Sub Hc).
Qed.

(** ** The write, step by step *)

Section SetFacts.
Variable int_of_str : string -> option Z.
Variable float_of_str : string -> option float.

#[local] Abbreviation coerce := (coerce int_of_str float_of_str).
#[local] Abbreviation set_keys := (set_keys int_of_str float_of_str).
#[local] Abbreviation set_nested_value :=
  (set_nested_value int_of_str float_of_str).

Lemma set_keys_last last_key current val :
  set_keys [last_key] current val =
  match resolve last_key with
  | Raise e => (current, Raise e)
  | Return k =>
      match subscript current k with
      | Raise e => (current, Raise e)
      | Return old =>
          match store current k
                  (if is_number old then coerce val else val) with
          | Raise e => (current, Raise e)
          | Return current' => (current', Return tt)
          end
      end
  end.
Proof. reflexivity. Qed.

Lemma set_keys_walk key next_key rest current val :
  set_keys (key :: next_key :: rest) current val =
  match resolve key with
  | Raise e => (current, Raise e)
  | Return k =>
      match (match current with
             | VList _ => Return current
             | _ => vivify current k next_key
             end) with
      | Raise e => (current, Raise e)
      | Return current' =>
          match subscript current' k with
          | Raise e => (current', Raise e)
          | Return child =>
              let (child', how) := set_keys (next_key :: rest) child val in
              (put_back current' k child', how)
          end
      end
  end.
Proof. reflexivity. Qed.

Lemma coerce_number val : is_number val = true -> coerce val = val.
Proof. destruct val; simpl; auto; discriminate. Qed.

Lemma coerce_not_number val :
  is_number (coerce val) = false -> coerce val = val.
Proof.
  destruct val as [ | | | | s | | ]; simpl; auto.
  destruct (Text.has_char "." s).
  - destruct (float_of_str s); simpl; auto; discriminate.
  - destruct (int_of_str s); simpl; auto; discriminate.
Qed.

(** What the write stores is what a second write over it would store. *)
Lemma stored_again old val :
  let stored := if is_number old then coerce val else val in
  (if is_number stored then coerce val else val) = stored.
Proof.
  simpl. destruct (is_number old).
  - destruct (is_number (coerce val)) eqn:E; auto.
    symmetry. now apply coerce_not_number.
  - destruct (is_number val) eqn:E; auto.
    now apply coerce_number.
Qed.

(** The container the walk continues from after one step. *)
Lemma walk_from_container current k next_key current' :
  match current with
  | VList _ => Return current
  | _ => vivify current k next_key
  end = Return current' ->
  is_scalar current' = false.
Proof.
  destruct current; simpl; try discriminate.
  - now intros [= <-].
  - destruct (dict_get k d); now intros [= <-].
Qed.

Lemma set_keys_again keys :
  forall d val d1,
    set_keys keys d val = (d1, Return tt) ->
    set_keys keys d1 val = (d1, Return tt).
Proof.
  induction keys as [ | key keys IH ]; intros d val d1 H.
  - discriminate.
  - destruct keys as [ | next_key rest ].
    + rewrite set_keys_last in *.
      destruct (resolve key) as [k | ]; try discriminate.
      destruct (subscript d k) as [old | ]; try discriminate.
      destruct (store d k _) as [d' | ] eqn:St; try discriminate.
      injection H as <-.
      rewrite (subscript_store _ _ _ _ St), stored_again.
      now rewrite (store_twice _ _ _ _ St).
    + rewrite set_keys_walk in *.
      destruct (resolve key) as [k | ]; try discriminate.
      destruct (match d with VList _ => Return d | _ => vivify d k next_key end)
        as [current' | ] eqn:W; try discriminate.
      pose proof (walk_from_container _ _ _ _ W) as Hc.
      destruct (subscript current' k) as [child | ] eqn:Sub;
        try discriminate.
      destruct (set_keys (next_key :: rest) child val) as [child' how] eqn:R.
      injection H as <- ->.
      apply IH in R.
      assert (subscript (put_back current' k child') k = Return child')
        as Sub' by (eapply subscript_put_back; eauto).
      assert (match put_back current' k child' with
              | VList _ => Return (put_back current' k child')
              | _ => vivify (put_back current' k child') k next_key
              end = Return (put_back current' k child')) as W'.
      { destruct current' as [ | | | | | l | entries ]; try discriminate.
        - destruct k; reflexivity.
        - simpl. simpl in Sub'.
          destruct (dict_get k (dict_set k child' entries)); congruence. }
      rewrite W', Sub', R. now rewrite put_back_twice.
Qed.

(** *** A fresh container never takes the write *)

Lemma subscript_empty c k :
  c = VList [] \/ c = VDict [] -> exists e, subscript c k = Raise e.
Proof.
  intros [-> | ->]; simpl; eauto.
  destruct k as [name | n]; eauto.
  destruct (N.to_nat n); simpl; eauto.
Qed.

Lemma empty_container_raises keys :
  forall c val,
    c = VList [] \/ c = VDict [] ->
    exists c' e,
      set_keys keys c val = (c', Raise e) /\
      (c = VList [] -> c' = VList []) /\
      (c = VDict [] -> exists sub, c' = VDict sub).
Proof.
  assert (forall (c : value) e,
             c = VList [] \/ c = VDict [] ->
             exists c' e',
               (c, @Raise unit e) = (c', Raise e') /\
               (c = VList [] -> c' = VList []) /\
               (c = VDict [] -> exists sub, c' = VDict sub)) as stays.
  { intros c e Hc. exists c, e. repeat split; eauto. }
  induction keys as [ | key keys IH ]; intros c val Hc.
  - now apply stays.
  - destruct keys as [ | next_key rest ].
    + rewrite set_keys_last.
      destruct (resolve key) as [k | e]; [ | now apply stays ].
      destruct (subscript_empty c k Hc) as [e ->]. now apply stays.
    + rewrite set_keys_walk.
      destruct (resolve key) as [k | e]; [ | now apply stays ].
      destruct Hc as [-> | ->].
      * destruct (subscript_empty (VList []) k) as [e ->]; auto.
      * destruct (IH (fresh next_key) val) as (c' & e & R & _ & _).
        { unfold fresh. destruct (Text.isdigit next_key); auto. }
        assert (vivify (VDict []) k next_key
                = Return (VDict [(k, fresh next_key)])) as -> by reflexivity.
        assert (subscript (VDict [(k, fresh next_key)]) k
                = Return (fresh next_key)) as ->
          by (simpl; now rewrite key_eqb_refl).
        rewrite R.
        exists (put_back (VDict [(k, fresh next_key)]) k c'), e.
        repeat split; try discriminate.
        intros _. simpl. eauto.
Qed.

Lemma fresh_raises keys next_key val :
  exists c' e,
    set_keys keys (fresh next_key) val = (c', Raise e) /\
    if Text.isdigit next_key then c' = VList []
    else exists sub, c' = VDict sub.
Proof.
  unfold fresh.
  destruct (Text.isdigit next_key).
  - destruct (empty_container_raises keys (VList []) val) as (c' & e & R & H & _);
      auto.
    exists c', e. auto.
  - destruct (empty_container_raises keys (VDict []) val) as (c' & e & R & _ & H);
      auto.
    exists c', e. auto.
Qed.

(** *** The walk through nodes that exist *)

Lemma set_keys_through pre :
  forall addr d node keys val,
    address pre = Some addr ->
    node_at addr d = Some node ->
    keys <> [] ->
    exists d',
      set_keys (pre ++ keys) d val
        = (d', snd (set_keys keys node val)) /\
      node_at addr d' = Some (fst (set_keys keys node val)).
Proof.
  induction pre as [ | key pre IH ]; intros addr d node keys val Ha Hn Hk.
  - injection Ha as <-. injection Hn as <-.
    exists (fst (set_keys keys d val)). split; auto.
    simpl. now destruct (set_keys keys d val).
  - simpl in Ha.
    destruct (resolve key) as [k | ] eqn:Rk; try discriminate.
    destruct (address pre) as [addr' | ] eqn:Ha'; try discriminate.
    injection Ha as <-.
    assert (exists child, subscript d k = Return child /\
                          node_at addr' child = Some node /\
                          is_scalar d = false /\
                          forall next_key,
                            match d with
                            | VList _ => Return d
                            | _ => vivify d k next_key
                            end = Return d)
      as (child & Sub & Hn' & Hc & W).
    { simpl in Hn.
      destruct d as [ | | | | | l | entries ]; try discriminate.
      - destruct k as [name | n]; try discriminate.
        destruct (nth_error l (N.to_nat n)) as [child | ] eqn:E;
          try discriminate.
        exists child. simpl. rewrite E. auto.
      - destruct (dict_get k entries) as [child | ] eqn:E;
          try discriminate.
        exists child. simpl. rewrite E. auto. }
    destruct (pre ++ keys) as [ | next_key rest ] eqn:Eq.
    { apply app_eq_nil in Eq. tauto. }
    change ((key :: pre) ++ keys) with (key :: (pre ++ keys)).
    rewrite Eq, set_keys_walk, Rk, W, Sub, <- Eq.
    destruct (IH addr' child node keys val eq_refl Hn' Hk) as (child' & R & Hn'').
    rewrite R.
    exists (put_back d k child'). split; auto.
    assert (subscript (put_back d k child') k = Return child') as Sub'
      by (eapply subscript_put_back; eauto).
    simpl.
    destruct d as [ | | | | | l | entries ]; try discriminate.
    + destruct k as [name | n]; try discriminate.
      simpl in *.
      destruct (nth_error (list_set (N.to_nat n) child' l) (N.to_nat n));
        congruence.
    + simpl in *.
      destruct (dict_get k (dict_set k child' entries)); congruence.
Qed.

(** *** Writing at a node that exists *)

Lemma set_keys_existing keys :
  forall target d old val,
    address keys = Some target -> target <> [] ->
    node_at target d = Some old ->
    let stored := if is_number old then coerce val else val in
    exists d',
      set_keys keys d val = (d', Return tt) /\
      node_at target d' = Some stored /\
      (stored = old -> d' = d).
Proof.
  induction keys as [ | key keys IH ]; intros target d old val Ha Ht Hn.
  - injection Ha as <-. congruence.
  - simpl in Ha.
    destruct (resolve key) as [k | ] eqn:Rk; try discriminate.
    destruct (address keys) as [target' | ] eqn:Ha'; try discriminate.
    injection Ha as <-.
    destruct (node_at_step _ _ _ _ Hn) as (child & Sub & Hn' & Hc & W).
    destruct keys as [ | next_key rest ].
    + injection Ha' as <-. injection Hn' as ->.
      rewrite set_keys_last, Rk, Sub. intros stored.
      destruct (store_after_subscript d k old stored Sub Hc) as [d' St].
      fold stored. rewrite St.
      exists d'. repeat split.
      * rewrite (node_at_child k [] d' stored); auto.
        -- now apply subscript_store with (d := d).
        -- destruct d as [ | | | | | l | entries ], k; simpl in St;
             try discriminate.
           ++ destruct (_ <? _)%nat; try discriminate.
              now injection St as <-.
           ++ now injection St as <-.
           ++ now injection St as <-.
      * intros ->. rewrite (store_present d k old Sub Hc) in St.
        congruence.
    + assert (target' <> []) as Ht'.
      { simpl in Ha'. destruct (resolve next_key); try discriminate.
        destruct (address rest); try discriminate.
        injection Ha' as <-. discriminate. }
      destruct (IH target' child old val eq_refl Ht' Hn')
        as (child' & R & Hs & Hsame).
      rewrite set_keys_walk, Rk, W, Sub, R. intros stored.
      exists (put_back d k child'). repeat split.
      * now rewrite (node_at_put_back k target' d child child').
      * intros E. rewrite (Hsame E). now apply put_back_present.
Qed.

(** *** What a successful write went through *)

Lemma set_keys_target keys :
  forall d val d',
    set_keys keys d val = (d', Return tt) ->
    exists target old,
      address keys = Some target /\ target <> [] /\
      node_at target d = Some old.
Proof.
  induction keys as [ | key keys IH ]; intros d val d' H.
  - discriminate.
  - destruct keys as [ | next_key rest ].
    + rewrite set_keys_last in H.
      destruct (resolve key) as [k | ] eqn:Rk; try discriminate.
      destruct (subscript d k) as [old | ] eqn:Sub; try discriminate.
      destruct (store d k _) as [d1 | ] eqn:St; try discriminate.
      exists [k], old. split; [ | split ].
      * simpl. now rewrite Rk.
      * discriminate.
      * rewrite (node_at_child k [] d old); auto.
        destruct d, k; simpl in St; try discriminate; reflexivity.
    + rewrite set_keys_walk in H.
      destruct (resolve key) as [k | ] eqn:Rk; try discriminate.
      destruct (match d with VList _ => Return d | _ => vivify d k next_key end)
        as [current' | ] eqn:W; try discriminate.
      destruct (subscript current' k) as [child | ] eqn:Sub;
        try discriminate.
      destruct (set_keys (next_key :: rest) child val) as [child' how] eqn:R.
      injection H as <- ->.
      assert (current' = d) as ->.
      { destruct d as [ | | | | | l | entries ]; simpl in W;
          try discriminate; try congruence.
        destruct (dict_get k entries) eqn:E; try congruence.
        injection W as <-. simpl in Sub.
        rewrite dict_get_set_same in Sub. injection Sub as <-.
        destruct (fresh_raises (next_key :: rest) next_key val)
          as (c' & e & R' & _).
        congruence. }
      destruct (IH _ _ _ R) as (target' & old & Ha & Ht & Hn).
      exists (k :: target'), old.
      change (address (key :: next_key :: rest))
        with (match resolve key, address (next_key :: rest) with
              | Return k, Some addr => Some (k :: addr)
              | _, _ => None
              end).
      rewrite Rk, Ha. repeat split; try discriminate.
      rewrite (node_at_child k target' d child); auto.
      eapply walk_from_container; eauto.
Qed.

(** *** The frame of a write, however it ends *)

Lemma set_keys_frame keys :
  forall d val d' how target,
    set_keys keys d val = (d', how) ->
    address keys = Some target ->
    forall addr,
      ~ prefix_of addr target -> ~ prefix_of target addr ->
      node_at addr d' = node_at addr d.
Proof.
  induction keys as [ | key keys IH ];
    intros d val d' how target H Ha addr Hnp Hnq.
  - injection Ha as <-. exfalso. apply Hnq. now exists addr.
  - destruct addr as [ | q addr ].
    { exfalso. apply Hnp. now exists target. }
    simpl in Ha.
    destruct (resolve key) as [k | ] eqn:Rk; try discriminate.
    destruct (address keys) as [target' | ] eqn:Ha'; try discriminate.
    injection Ha as <-.
    assert (q <> k \/
            (q = k /\ ~ prefix_of addr target' /\ ~ prefix_of target' addr))
      as Hcase.
    { destruct (key_eqb q k) eqn:E.
      - apply key_eqb_eq in E. subst q. right. repeat split.
        + intros [r ->]. apply Hnp. now exists r.
        + intros [r ->]. apply Hnq. now exists r.
      - left. intros ->. now rewrite key_eqb_refl in E. }
    destruct keys as [ | next_key rest ].
    + injection Ha' as <-.
      destruct Hcase as [Hne | (_ & _ & Hno)].
      2:{ exfalso. apply Hno. now exists addr. }
      rewrite set_keys_last, Rk in H.
      destruct (subscript d k) as [old | ]; [ | congruence ].
      destruct (store d k _) as [d1 | ] eqn:St; [ | congruence ].
      injection H as <- _.
      eapply node_at_store_other; eauto.
    + rewrite set_keys_walk, Rk in H.
      destruct (match d with VList _ => Return d | _ => vivify d k next_key end)
        as [current' | ] eqn:W; [ | congruence ].
      pose proof (walk_from_container _ _ _ _ W) as Hc.
      destruct (subscript current' k) as [child | ] eqn:Sub.
      * destruct (set_keys (next_key :: rest) child val)
          as [child' how'] eqn:R.
        injection H as <- _.
        destruct Hcase as [Hne | (-> & Hnp' & Hnq')].
        -- rewrite node_at_put_back_other; auto.
           eapply node_at_vivify_other; eauto.
        -- rewrite (node_at_put_back k addr current' child child'); auto.
           rewrite (IH _ _ _ _ _ R eq_refl addr Hnp' Hnq').
           rewrite <- (node_at_child k addr current' child); auto.
           destruct d as [ | | | | | l | entries ]; simpl in W;
             try discriminate; try congruence.
           destruct (dict_get k entries) eqn:E; try congruence.
           injection W as <-.
           simpl in Sub. rewrite dict_get_set_same in Sub.
           injection Sub as <-.
           simpl. rewrite dict_get_set_same. fold dict_get. rewrite E.
           destruct addr as [ | q' addr ].
           { exfalso. apply Hnp'. now exists target'. }
           apply node_at_below_fresh.
      * injection H as <- _.
        destruct Hcase as [Hne | (-> & Hnp' & Hnq')].
        -- eapply node_at_vivify_other; eauto.
        -- destruct d as [ | | | | | l | entries ]; simpl in W;
             try discriminate; try congruence.
           destruct (dict_get k entries) eqn:E; try congruence.
           injection W as <-.
           simpl in Sub. rewrite dict_get_set_same in Sub. discriminate.
Qed.
End SetFacts.

Lemma node_at_app a :
  forall b d node,
    node_at a d = Some node -> node_at (a ++ b) d = node_at b node.
Proof.
  induction a as [ | k a IH ]; intros b d node H.
  - now injection H as <-.
  - change ((k :: a) ++ b) with (k :: (a ++ b)).
    destruct (node_at_step _ _ _ _ H) as (child & Sub & Hn & Hc & _).
    rewrite (node_at_child _ _ _ _ Sub Hc). now apply IH.
Qed.

(** ** Reads *)

Lemma get_keys_app pre :
  forall keys d node,
    get_keys pre d = Return node ->
    get_keys (pre ++ keys) d = get_keys keys node.
Proof.
  induction pre as [ | key pre IH ]; intros keys d node; simpl.
  - now intros [= <-].
  - destruct (resolve key) as [k | ]; try discriminate.
    destruct (subscript d k) as [child | ]; try discriminate.
    apply IH.
Qed.

Lemma str_keyed_no_index entries n :
  str_keyed entries = true -> dict_get (KInt n) entries = None.
Proof.
  induction entries as [ | [[name | m] v] entries IH ]; simpl; auto;
    discriminate.
Qed.

Lemma unresolvable_raises node key :
  unresolvable node key ->
  forall keys, exists e, get_keys (key :: keys) node = Raise e.
Proof.
  intros H keys. simpl. unfold resolve.
  destruct H as [ entries k Hd Habs | l k Hd Hout | l k Hd | entries k Hd Hs ];
    rewrite Hd.
  - simpl. rewrite Habs. eauto.
  - destruct (Text.int_of_digits k) as [n | ] eqn:E; eauto.
    simpl. specialize (Hout n eq_refl).
    apply nth_error_None in Hout. rewrite Hout. eauto.
  - simpl. eauto.
  - destruct (Text.int_of_digits k) as [n | ]; eauto.
    simpl. rewrite (str_keyed_no_index _ _ Hs). eauto.
Qed.

(** C7. [get_nested_value] ends in an exception, not in a value, whenever a
    segment of the parsed path cannot be followed from the node the walk has
    reached: the key is absent from the object, the index is past the end of
    the array, a key segment meets an array, or an index segment meets an
    object. *)
Theorem get_nested_value_fails d path pre key post node :
  path_keys path = pre ++ key :: post ->
  get_keys pre d = Return node ->
  unresolvable node key ->
  exists e, get_nested_value d path = Raise e.
Proof.
  intros Hp Hpre Hbad. unfold get_nested_value.
  rewrite Hp, (get_keys_app pre (key :: post) d node Hpre).
  now apply unresolvable_raises.
Qed.

Lemma get_nested_value_fails_witness :
  exists e, get_nested_value (VDict [(KStr "a", VInt 1)]) "b" = Raise e.
Proof.
  apply (get_nested_value_fails
           (VDict [(KStr "a", VInt 1)]) "b" [] "b" []
           (VDict [(KStr "a", VInt 1)])).
  - reflexivity.
  - reflexivity.
  - apply absent_key; reflexivity.
Defined.

(** The lookup of the specification's example raises KeyError. *)
Example get_missing_key :
  get_nested_value (VDict [(KStr "a", VInt 1)]) "b" = Raise KeyError.
Proof. reflexivity. Qed.

(** ** Writes *)

Section SetClaims.
Variable int_of_str : string -> option Z.
Variable float_of_str : string -> option float.

#[local] Abbreviation coerce := (coerce int_of_str float_of_str).
#[local] Abbreviation set_keys := (set_keys int_of_str float_of_str).
#[local] Abbreviation set_nested_value :=
  (set_nested_value int_of_str float_of_str).

(** C8. When [set_nested_value] returns, applying the same call to the
    document it left returns again and leaves that document as it is:
    twice is the same as once. *)
Theorem set_nested_value_twice d path val d1 :
  set_nested_value d path val = (d1, Return tt) ->
  set_nested_value d1 path val = (d1, Return tt).
Proof. apply set_keys_again. Qed.

(** C4. On a leaf that holds a number the raw text is read as a float
    when it contains a point and as an integer otherwise, and is stored
    unchanged when that reading fails; the call returns either way. *)
Theorem number_leaf_is_coerced entries path raw old :
  get_nested_value (VDict entries) path = Return old ->
  is_number old = true ->
  exists d',
    set_nested_value (VDict entries) path (VStr raw) = (d', Return tt) /\
    get_nested_value d' path =
      Return (match (if Text.has_char "." raw
                     then option_map VFloat (float_of_str raw)
                     else option_map VInt (int_of_str raw)) with
              | Some number => number
              | None => VStr raw
              end).
Proof.
  intros G Hnum. unfold get_nested_value, set_nested_value in *.
  destruct (get_number_node _ _ _ G Hnum) as (target & Ha & Hn).
  assert (target <> []) as Ht.
  { intros ->. injection Hn as <-. discriminate. }
  destruct (set_keys_existing int_of_str float_of_str _ _ _ _ (VStr raw)
              Ha Ht Hn) as (d' & R & Hs & _).
  exists d'. split; auto.
  rewrite Hnum in Hs.
  apply (node_at_get _ _ _ _ Ha Hs).
Qed.

(** C3, as the code has it.  On a leaf that holds a string or None the
    raw text is stored as it is, with no attempt to read a number; a
    boolean leaf is a number to [isinstance(_, (int, float))] and is
    written like an integer or a float leaf. *)
Theorem text_leaf_stored_verbatim entries path raw target old :
  address (path_keys path) = Some target ->
  node_at target (VDict entries) = Some old ->
  is_scalar old = true ->
  exists d',
    set_nested_value (VDict entries) path (VStr raw) = (d', Return tt) /\
    node_at target d' =
      Some (match old with
            | VStr _ | VNone => VStr raw
            | _ => coerce (VStr raw)
            end).
Proof.
  intros Ha Hn Hleaf. unfold set_nested_value.
  assert (target <> []) as Ht.
  { intros ->. injection Hn as <-. discriminate. }
  destruct (set_keys_existing int_of_str float_of_str _ _ _ _ (VStr raw)
              Ha Ht Hn) as (d' & R & Hs & _).
  exists d'. split; auto.
  rewrite Hs. destruct old; try discriminate; reflexivity.
Qed.

(** The final segment names a key the object lacks: KeyError, and the
    object is left as it was. *)
Lemma absent_leaf_raises entries last_key k val :
  resolve last_key = Return k -> dict_get k entries = None ->
  set_keys [last_key] (VDict entries) val = (VDict entries, Raise KeyError).
Proof.
  intros Rk E. rewrite set_keys_last, Rk. simpl. now rewrite E.
Qed.

(** C9, as far as the code goes.  Where the walk meets an object that
    lacks an intermediate key it inserts a container there, a list when
    the next segment is all digits and a dictionary otherwise, and walks
    on into it; the call then ends in an exception instead of writing. *)
Theorem vivified_walk_raises d path val pre key next_key rest addr entries k :
  path_keys path = pre ++ key :: next_key :: rest ->
  address pre = Some addr ->
  node_at addr d = Some (VDict entries) ->
  resolve key = Return k ->
  dict_get k entries = None ->
  exists d' made e,
    set_nested_value d path val = (d', Raise e) /\
    node_at (addr ++ [k]) d' = Some made /\
    if Text.isdigit next_key then made = VList []
    else exists sub, made = VDict sub.
Proof.
  intros Hp Ha Hn Rk E. unfold set_nested_value. rewrite Hp.
  destruct (set_keys_through int_of_str float_of_str pre addr d
              (VDict entries) (key :: next_key :: rest) val Ha Hn)
    as (d' & R & Hn'); try discriminate.
  rewrite set_keys_walk, Rk in R, Hn'.
  assert (vivify (VDict entries) k next_key
          = Return (VDict (dict_set k (fresh next_key) entries))) as W
    by (simpl; now rewrite E).
  rewrite W in R, Hn'.
  assert (subscript (VDict (dict_set k (fresh next_key) entries)) k
          = Return (fresh next_key)) as Sub
    by (simpl; now rewrite dict_get_set_same).
  rewrite Sub in R, Hn'.
  destruct (fresh_raises int_of_str float_of_str
              (next_key :: rest) next_key val) as (made & e & F & Hkind).
  rewrite F in R, Hn'. simpl in R, Hn'.
  exists d', made, e. repeat split; auto.
  rewrite (node_at_app _ _ _ _ Hn'). simpl.
  now rewrite dict_get_set_same.
Qed.

(** C10, as the code has it.  After a call that returns, every node whose
    address is neither on the way to the written one nor below it is as
    before, so a leaf keeps its value unless it is the written node or
    lies below it; when the written node was a leaf, every other leaf
    keeps its value. *)
Theorem set_nested_value_frame d path val d' :
  set_nested_value d path val = (d', Return tt) ->
  exists target,
    address (path_keys path) = Some target /\
    (forall addr,
        ~ prefix_of addr target -> ~ prefix_of target addr ->
        node_at addr d' = node_at addr d) /\
    (forall addr x,
        node_at addr d = Some x -> is_scalar x = true ->
        ~ prefix_of target addr ->
        node_at addr d' = Some x) /\
    (forall old addr x,
        node_at target d = Some old -> is_scalar old = true ->
        node_at addr d = Some x -> is_scalar x = true ->
        addr <> target ->
        node_at addr d' = Some x).
Proof.
  intros H. unfold set_nested_value in H.
  destruct (set_keys_target int_of_str float_of_str _ _ _ _ H)
    as (target & old & Ha & Ht & Hn).
  pose proof (set_keys_frame int_of_str float_of_str _ _ _ _ _ _ H Ha)
    as Hframe.
  assert (forall addr rest,
             target = addr ++ rest -> rest <> [] ->
             exists c, node_at addr d = Some c /\ is_scalar c = false)
    as Hway.
  { intros addr rest -> Hr. eapply node_at_prefix_container; eauto. }
  assert (forall addr x,
             node_at addr d = Some x -> is_scalar x = true ->
             ~ prefix_of target addr ->
             node_at addr d' = Some x) as Hleaf.
  { intros addr x Hx Hs Hnot. rewrite Hframe; auto.
    intros [rest ->].
    destruct rest as [ | q rest ].
    - apply Hnot. exists []. now rewrite !app_nil_r.
    - destruct (Hway addr (q :: rest) eq_refl) as (c & Hc & Hk);
        try discriminate.
      congruence. }
  exists target. repeat split; auto.
  intros old' addr x Hold Hso Hx Hsx Hne.
  apply Hleaf; auto.
  intros [rest ->].
  destruct rest as [ | q rest ].
  - apply Hne. now rewrite !app_nil_r.
  - destruct (node_at_prefix_container target (q :: rest) d x Hx)
      as (c & Hc & Hk); try discriminate.
    congruence.
Qed.
End SetClaims.

(** ** The writes of the examples *)

Lemma set_nested_value_twice_witness :
  Sample.set_nested_value (Sample.quantity_doc (VInt 10))
    Sample.quantity_path (VStr "3.5")
  = (Sample.quantity_doc (VFloat Sample.three_and_a_half), Return tt) /\
  Sample.set_nested_value (Sample.quantity_doc (VFloat Sample.three_and_a_half))
    Sample.quantity_path (VStr "3.5")
  = (Sample.quantity_doc (VFloat Sample.three_and_a_half), Return tt).
Proof.
  split.
  - reflexivity.
  - apply (set_nested_value_twice Literal.int_of_str Literal.float_of_str
             (Sample.quantity_doc (VInt 10))).
    reflexivity.
Defined.

Lemma number_leaf_is_coerced_witness :
  exists d',
    Sample.set_nested_value (Sample.quantity_doc (VInt 10))
      Sample.quantity_path (VStr "3.5") = (d', Return tt) /\
    get_nested_value d' Sample.quantity_path
    = Return (VFloat Sample.three_and_a_half).
Proof.
  apply (number_leaf_is_coerced Literal.int_of_str Literal.float_of_str
           [(KStr "data",
             VDict [(KStr "meters",
                     VList [VDict [(KStr "quantity", VInt 10)]])])]
           Sample.quantity_path "3.5" (VInt 10)).
  - reflexivity.
  - reflexivity.
Defined.

(** The two writes of the specification's example. *)
Example set_quantity_float :
  Sample.set_nested_value (Sample.quantity_doc (VInt 10))
    Sample.quantity_path (VStr "3.5")
  = (Sample.quantity_doc (VFloat Sample.three_and_a_half), Return tt).
Proof. reflexivity. Qed.

Example set_quantity_fallback :
  Sample.set_nested_value (Sample.quantity_doc (VInt 10))
    Sample.quantity_path (VStr "abc")
  = (Sample.quantity_doc (VStr "abc"), Return tt).
Proof. reflexivity. Qed.

Lemma text_leaf_stored_verbatim_witness :
  exists d',
    Sample.set_nested_value (Sample.service_doc (VStr "x"))
      "data.service" (VStr "42") = (d', Return tt) /\
    node_at [KStr "data"; KStr "service"] d' = Some (VStr "42").
Proof.
  apply (text_leaf_stored_verbatim Literal.int_of_str Literal.float_of_str
           [(KStr "data", VDict [(KStr "service", VStr "x")])]
           "data.service" "42" [KStr "data"; KStr "service"] (VStr "x")).
  - reflexivity.
  - reflexivity.
  - reflexivity.
Defined.

(** C3 as stated fails: over a boolean leaf the text "5" is stored as the
    integer 5. *)
Lemma boolean_leaf_is_coerced :
  Sample.set_nested_value (Sample.flag_doc (VBool true)) "flag" (VStr "5")
  = (Sample.flag_doc (VInt 5), Return tt) /\
  Sample.flag_doc (VInt 5) <> Sample.flag_doc (VStr "5").
Proof. split; [ reflexivity | discriminate ]. Qed.

(** C2 on the code: the write to the absent leaf [data.tags.team] of the
    empty document raises KeyError and leaves the two containers it made. *)
Theorem set_absent_leaf_raises :
  Sample.set_nested_value (VDict []) "data.tags.team" (VStr "eng")
  = (VDict [(KStr "data", VDict [(KStr "tags", VDict [])])], Raise KeyError).
Proof. reflexivity. Qed.

Lemma vivified_walk_raises_witness :
  exists d' made e,
    Sample.set_nested_value (VDict [(KStr "data", VDict [])])
      "data.tags.team" (VStr "eng") = (d', Raise e) /\
    node_at ([KStr "data"] ++ [KStr "tags"]) d' = Some made /\
    exists sub, made = VDict sub.
Proof.
  apply (vivified_walk_raises Literal.int_of_str Literal.float_of_str
           (VDict [(KStr "data", VDict [])]) "data.tags.team" (VStr "eng")
           ["data"] "tags" "team" [] [KStr "data"] [] (KStr "tags"));
    reflexivity.
Defined.

Lemma set_nested_value_frame_witness :
  Sample.set_nested_value
    (VDict [(KStr "id", VStr "e1"); (KStr "data", VDict [(KStr "service", VStr "x")])])
    "data.service" (VStr "y")
  = (VDict [(KStr "id", VStr "e1"); (KStr "data", VDict [(KStr "service", VStr "y")])],
     Return tt) /\
  node_at [KStr "id"]
    (VDict [(KStr "id", VStr "e1"); (KStr "data", VDict [(KStr "service", VStr "y")])])
  = Some (VStr "e1").
Proof.
  split; [ reflexivity | ].
  destruct (set_nested_value_frame Literal.int_of_str Literal.float_of_str
              (VDict [(KStr "id", VStr "e1");
                      (KStr "data", VDict [(KStr "service", VStr "x")])])
              "data.service" (VStr "y")
              (VDict [(KStr "id", VStr "e1");
                      (KStr "data", VDict [(KStr "service", VStr "y")])])
              eq_refl)
    as (target & Ha & _ & Hleaf & _).
  apply Hleaf; [ reflexivity | reflexivity | ].
  injection Ha as <-. intros [rest H]. discriminate H.
Defined.

(** C10 as stated fails: a write whose path names a container returns, and
    the leaf below that container, which is not the node the path names, is
    gone. *)
Lemma leaf_below_target_lost :
  Sample.set_nested_value (Sample.service_doc (VStr "x")) "data" (VStr "y")
  = (VDict [(KStr "data", VStr "y")], Return tt) /\
  address (path_keys "data") = Some [KStr "data"] /\
  [KStr "data"; KStr "service"] <> [KStr "data"] /\
  node_at [KStr "data"; KStr "service"] (Sample.service_doc (VStr "x"))
  = Some (VStr "x") /\
  node_at [KStr "data"; KStr "service"] (VDict [(KStr "data", VStr "y")])
  = None.
Proof. repeat split; discriminate. Qed.

(** ** The path grammar *)

Lemma has_char_app c a b :
  Text.has_char c (a ++ b) = Text.has_char c a || Text.has_char c b.
Proof.
  induction a as [ | x a IH ]; simpl; auto.
  now rewrite IH, orb_assoc.
Qed.

Lemma remove_char_app c a b :
  Text.remove_char c (a ++ b)
  = (Text.remove_char c a ++ Text.remove_char c b)%string.
Proof.
  induction a as [ | x a IH ]; simpl; auto.
  destruct (Ascii.eqb x c); simpl; now rewrite IH.
Qed.

Lemma remove_char_absent c s :
  Text.has_char c s = false -> Text.remove_char c s = s.
Proof.
  induction s as [ | x s IH ]; simpl; auto.
  destruct (Ascii.eqb x c); simpl; try discriminate.
  intros H. now rewrite IH.
Qed.

Lemma split_absent c s : Text.has_char c s = false -> Text.split c s = [s].
Proof.
  induction s as [ | x s IH ]; simpl; auto.
  destruct (Ascii.eqb x c); simpl; try discriminate.
  intros H. now rewrite IH.
Qed.

Lemma split_last c s : exists pieces piece, Text.split c s = pieces ++ [piece].
Proof.
  induction s as [ | x s (pieces & piece & IH) ]; simpl.
  - now exists [], EmptyString.
  - destruct (Ascii.eqb x c).
    + exists (EmptyString :: pieces), piece. now rewrite IH.
    + rewrite IH. destruct pieces as [ | p pieces ]; simpl.
      * now exists [], (String x piece).
      * now exists (String x p :: pieces), piece.
Qed.

(** Splitting at an occurrence of the separator. *)
Lemma split_app_sep c a b :
  Text.split c (a ++ String c b) = Text.split c a ++ Text.split c b.
Proof.
  induction a as [ | x a IH ]; simpl.
  - now rewrite Ascii.eqb_refl.
  - destruct (Ascii.eqb x c); simpl.
    + now rewrite IH.
    + rewrite IH.
      destruct (split_last c a) as (pieces & piece & ->).
      destruct pieces; reflexivity.
Qed.

(** Text without the separator only lengthens the last piece. *)
Lemma split_app_last c a b :
  Text.has_char c b = false ->
  exists pieces piece,
    Text.split c a = pieces ++ [piece] /\
    Text.split c (a ++ b) = pieces ++ [(piece ++ b)%string].
Proof.
  intros Hb. induction a as [ | x a (pieces & piece & IH & IH') ]; simpl.
  - exists [], EmptyString. split; auto. now apply split_absent.
  - destruct (Ascii.eqb x c).
    + exists (EmptyString :: pieces), piece. now rewrite IH, IH'.
    + rewrite IH, IH'. destruct pieces as [ | p pieces ]; simpl.
      * now exists [], (String x piece).
      * now exists (String x p :: pieces), piece.
Qed.

Lemma clean_spec s :
  clean s = true ->
  Text.truthy s = true /\ Text.has_char "." s = false /\
  Text.has_char "[" s = false /\ Text.has_char "]" s = false.
Proof.
  unfold clean. rewrite !andb_true_iff, !negb_true_iff. tauto.
Qed.

Lemma path_keys_empty : path_keys "" = [].
Proof. reflexivity. Qed.

Lemma path_keys_clean s : clean s = true -> path_keys s = [s].
Proof.
  intros H. apply clean_spec in H as (Ht & Hp & Ho & Hc).
  unfold path_keys.
  rewrite (remove_char_absent _ _ Hc), (split_absent _ _ Ho). simpl.
  rewrite app_nil_r, (split_absent _ _ Hp). simpl. now rewrite Ht.
Qed.

(** A key appended after a point is one more segment. *)
Lemma path_keys_key prefix name :
  clean name = true ->
  path_keys (prefix ++ "." ++ name) = path_keys prefix ++ [name].
Proof.
  intros H. apply clean_spec in H as (Ht & Hp & Ho & Hc).
  unfold path_keys.
  rewrite remove_char_app.
  assert (Text.remove_char "]" ("." ++ name) = String "." name) as ->.
  { apply remove_char_absent. simpl. exact Hc. }
  destruct (split_app_last "[" (Text.remove_char "]" prefix) (String "." name))
    as (pieces & piece & -> & ->).
  { simpl. exact Ho. }
  rewrite !flat_map_app. simpl. rewrite !app_nil_r.
  rewrite split_app_sep, (split_absent _ _ Hp).
  rewrite !filter_app. simpl. rewrite Ht.
  now rewrite app_assoc.
Qed.

(** An index appended between brackets is one more segment. *)
Lemma path_keys_index prefix digits :
  clean digits = true ->
  path_keys (prefix ++ "[" ++ digits ++ "]") = path_keys prefix ++ [digits].
Proof.
  intros H. apply clean_spec in H as (Ht & Hp & Ho & Hc).
  unfold path_keys.
  rewrite remove_char_app.
  assert (Text.remove_char "]" ("[" ++ digits ++ "]") = String "[" digits)
    as ->.
  { simpl. rewrite remove_char_app, (remove_char_absent _ _ Hc). simpl.
    f_equal. clear. induction digits; simpl; congruence. }
  rewrite split_app_sep, (split_absent _ _ Ho).
  rewrite flat_map_app. simpl. rewrite app_nil_r, (split_absent _ _ Hp).
  rewrite filter_app. simpl. now rewrite Ht.
Qed.

(** ** Decimal text *)

Lemma decimal_char_not c x :
  Text.decimal_char x = true -> In c ["."; "["; "]"]%char ->
  Ascii.eqb x c = false.
Proof.
  intros Hx Hc.
  destruct (Ascii.eqb x c) eqn:E; auto.
  apply Ascii.eqb_eq in E. subst x.
  destruct Hc as [<- | [<- | [<- | []]]]; discriminate.
Qed.

Lemma decimal_text_marks s c :
  Text.all_chars Text.decimal_char s = true -> In c ["."; "["; "]"]%char ->
  Text.has_char c s = false.
Proof.
  intros Hs Hc. induction s as [ | x s IH ]; simpl in *; auto.
  apply andb_true_iff in Hs as [Hx Hs].
  now rewrite (decimal_char_not c x Hx Hc), IH.
Qed.

Lemma decimal_text_clean s :
  Text.truthy s = true -> Text.all_chars Text.decimal_char s = true ->
  clean s = true.
Proof.
  intros Ht Hs. unfold clean.
  rewrite Ht, !decimal_text_marks; simpl; auto.
Qed.

Lemma decimal_text_isdigit s :
  Text.truthy s = true -> Text.all_chars Text.decimal_char s = true ->
  Text.isdigit s = true.
Proof.
  intros Ht Hs. unfold Text.isdigit. rewrite Ht. simpl.
  induction s as [ | x s IH ]; simpl in *; auto.
  apply andb_true_iff in Hs as [Hx Hs].
  unfold Text.digit_char. rewrite Hx. simpl.
  destruct s; auto.
Qed.

Lemma string_of_uint_decimal d :
  Text.all_chars Text.decimal_char (NilEmpty.string_of_uint d) = true.
Proof. induction d; simpl; auto. Qed.

Lemma str_of_N_decimal n :
  Text.truthy (Text.str_of_N n) = true /\
  Text.all_chars Text.decimal_char (Text.str_of_N n) = true.
Proof.
  unfold Text.str_of_N, NilZero.string_of_uint.
  destruct (N.to_uint n) eqn:E; try (split; reflexivity);
    rewrite <- E at 2; split; try reflexivity;
    apply string_of_uint_decimal.
Qed.

Lemma str_of_N_clean n : clean (Text.str_of_N n) = true.
Proof. destruct (str_of_N_decimal n). now apply decimal_text_clean. Qed.

Lemma str_of_N_isdigit n : Text.isdigit (Text.str_of_N n) = true.
Proof. destruct (str_of_N_decimal n). now apply decimal_text_isdigit. Qed.

(** [int(str(n)) == n] *)
Lemma int_of_str_of_N n : Text.int_of_digits (Text.str_of_N n) = Some n.
Proof.
  unfold Text.int_of_digits, Text.str_of_N, NilZero.string_of_uint.
  pose proof (DecimalN.Unsigned.of_to n) as H.
  destruct (N.to_uint n) eqn:E;
    try (rewrite <- E, NilEmpty.usu; simpl; now rewrite E, H).
  simpl in *. now subst n.
Qed.

Lemma resolve_str_of_N n : resolve (Text.str_of_N n) = Return (KInt n).
Proof.
  unfold resolve. now rewrite str_of_N_isdigit, int_of_str_of_N.
Qed.

Lemma str_of_nat_inj i j : Text.str_of_nat i = Text.str_of_nat j -> i = j.
Proof.
  unfold Text.str_of_nat. intros H.
  apply Nat2N.inj.
  pose proof (int_of_str_of_N (N.of_nat i)) as Hi.
  rewrite H, int_of_str_of_N in Hi. congruence.
Qed.

(** ** Segments and paths *)

Lemma path_keys_extend prefix s :
  good_seg s = true ->
  path_keys (extend prefix s) = path_keys prefix ++ [seg_text s].
Proof.
  destruct s as [name | i]; simpl; intros H.
  - apply andb_true_iff in H as [Hc _].
    destruct prefix as [ | x prefix ]; simpl Text.truthy.
    + simpl. now apply path_keys_clean.
    + now apply path_keys_key.
  - apply path_keys_index, str_of_N_clean.
Qed.

Lemma path_keys_render segs :
  forall prefix,
    good_segs segs ->
    path_keys (render prefix segs) = path_keys prefix ++ map seg_text segs.
Proof.
  induction segs as [ | s segs IH ]; intros prefix H; simpl.
  - now rewrite app_nil_r.
  - inversion H as [ | ? ? Hs Hrest ]; subst.
    unfold render in *. simpl.
    rewrite IH, path_keys_extend, <- app_assoc; auto.
Qed.

Lemma resolve_seg s :
  good_seg s = true -> resolve (seg_text s) = Return (seg_key s).
Proof.
  destruct s as [name | i]; simpl; intros H.
  - apply andb_true_iff in H as [_ Hd]. apply negb_true_iff in Hd.
    unfold resolve. now rewrite Hd.
  - apply resolve_str_of_N.
Qed.

Lemma address_segs segs :
  good_segs segs -> address (map seg_text segs) = Some (map seg_key segs).
Proof.
  induction 1 as [ | s segs Hs _ IH ]; simpl; auto.
  now rewrite (resolve_seg s Hs), IH.
Qed.

Lemma seg_text_inj s t :
  good_seg s = true -> good_seg t = true ->
  seg_text s = seg_text t -> s = t.
Proof.
  destruct s as [name | i], t as [name' | j]; simpl; intros Hs Ht E.
  - congruence.
  - apply andb_true_iff in Hs as [_ Hd]. apply negb_true_iff in Hd.
    rewrite E in Hd. unfold Text.str_of_nat in Hd.
    now rewrite str_of_N_isdigit in Hd.
  - apply andb_true_iff in Ht as [_ Hd]. apply negb_true_iff in Hd.
    rewrite <- E in Hd. unfold Text.str_of_nat in Hd.
    now rewrite str_of_N_isdigit in Hd.
  - f_equal. now apply str_of_nat_inj.
Qed.

Lemma seg_texts_inj segs :
  forall segs',
    good_segs segs -> good_segs segs' ->
    map seg_text segs = map seg_text segs' -> segs = segs'.
Proof.
  induction segs as [ | s segs IH ]; intros [ | t segs' ] H H' E;
    simpl in E; try discriminate; auto.
  inversion H; inversion H'; subst.
  injection E as E1 E2.
  f_equal; auto using seg_text_inj.
Qed.

(** Two good segment lists rendered under one prefix to the same path are
    the same list. *)
Lemma render_inj prefix segs segs' :
  good_segs segs -> good_segs segs' ->
  render prefix segs = render prefix segs' -> segs = segs'.
Proof.
  intros H H' E.
  apply seg_texts_inj; auto.
  apply (app_inv_head (path_keys prefix)).
  rewrite <- !path_keys_render; auto. now rewrite E.
Qed.

Lemma rendered_under prefix s entries :
  rendered prefix (map (under s) entries) = rendered (extend prefix s) entries.
Proof. unfold rendered. rewrite map_map. reflexivity. Qed.

Lemma rendered_app prefix a b :
  rendered prefix (a ++ b) = rendered prefix a ++ rendered prefix b.
Proof. apply map_app. Qed.

(** ** The entries of the flat view *)

Lemma in_enumerate_paths recur l :
  forall i e,
    In e (enumerate_paths recur i l) ->
    exists j item e',
      nth_error l j = Some item /\
      In e' (element_paths recur item) /\
      e = under (SIdx (i + j)) e'.
Proof.
  induction l as [ | a l IH ]; intros i e H; simpl in H; try contradiction.
  apply in_app_or in H as [H | H].
  - apply in_map_iff in H as (e' & <- & He').
    exists 0, a, e'. now rewrite Nat.add_0_r.
  - destruct (IH _ _ H) as (j & item & e' & Hj & He' & ->).
    exists (S j), item, e'. now rewrite Nat.add_succ_r.
Qed.

Lemma in_items_paths recur d :
  forall e,
    In e (items_paths recur d) ->
    exists k v e',
      In (k, v) d /\
      In e' (entry_paths recur v) /\
      e = under (SKey (key_text k)) e'.
Proof.
  induction d as [ | [k v] d IH ]; intros e H; simpl in H; try contradiction.
  apply in_app_or in H as [H | H].
  - apply in_map_iff in H as (e' & <- & He').
    exists k, v, e'. simpl. auto.
  - destruct (IH _ H) as (k' & v' & e' & Hin & He' & ->).
    exists k', v', e'. simpl. auto.
Qed.

Lemma plain_key_text k :
  plain_key k = true ->
  k = KStr (key_text k) /\ good_seg (SKey (key_text k)) = true.
Proof. destruct k; simpl; try discriminate. auto. Qed.

Lemma plain_entry entries k v :
  plain (VDict entries) = true -> In (k, v) entries ->
  plain_key k = true /\ plain v = true.
Proof.
  simpl. rewrite forallb_forall. intros H Hin.
  apply (H (k, v)) in Hin. now apply andb_true_iff in Hin.
Qed.

Lemma plain_item l item :
  plain (VList l) = true -> In item l -> plain item = true.
Proof. simpl. rewrite forallb_forall. auto. Qed.

Lemma well_formed_entry entries k v :
  well_formed (VDict entries) = true -> In (k, v) entries ->
  well_formed v = true.
Proof.
  simpl. rewrite andb_true_iff, forallb_forall. intros [_ H] Hin.
  apply (H (k, v) Hin).
Qed.

Lemma well_formed_item l item :
  well_formed (VList l) = true -> In item l -> well_formed item = true.
Proof. simpl. rewrite forallb_forall. auto. Qed.

(** With distinct keys every entry is the one its key finds. *)
Lemma dict_get_in entries k v :
  distinct_keys entries = true -> In (k, v) entries ->
  dict_get k entries = Some v.
Proof.
  induction entries as [ | [k' v'] entries IH ]; simpl; try contradiction.
  rewrite andb_true_iff, negb_true_iff. intros [Hfresh Hd] [E | Hin].
  - injection E as -> ->. now rewrite key_eqb_refl.
  - destruct (key_eqb k k') eqn:E.
    + apply key_eqb_eq in E. subst k'.
      assert (existsb (fun kv => key_eqb k (fst kv)) entries = true) as X.
      { apply existsb_exists. exists (k, v). split; auto.
        apply key_eqb_refl. }
      congruence.
    + now apply IH.
Qed.

(** Every entry is reached over segments the path grammar reads back. *)
Lemma leaf_paths_good v :
  plain v = true ->
  forall e, In e (entry_paths leaf_paths v) -> good_segs (fst e).
Proof.
  induction v as [ | | | | | l IH | entries IH ] using value_ind;
    intros Hp e He;
    try (destruct He as [<- | []]; constructor).
  - simpl in He.
    apply in_enumerate_paths in He as (j & item & e' & Hj & He' & ->).
    apply nth_error_In in Hj.
    constructor; auto. simpl.
    rewrite Forall_forall in IH.
    destruct item;
      try (destruct He' as [<- | []]; constructor).
    apply (IH _ Hj (plain_item _ _ Hp Hj)). exact He'.
  - simpl in He.
    apply in_items_paths in He as (k & v & e' & Hin & He' & ->).
    destruct (plain_entry _ _ _ Hp Hin) as [Hk Hv].
    rewrite Forall_forall in IH.
    constructor.
    + now apply plain_key_text.
    + apply (IH (k, v) Hin Hv). exact He'.
Qed.

(** Every entry is the node of the tree its segments address. *)
Lemma leaf_paths_node v :
  plain v = true -> well_formed v = true ->
  forall e,
    In e (entry_paths leaf_paths v) ->
    node_at (map seg_key (fst e)) v = Some (snd e).
Proof.
  induction v as [ | | | | | l IH | entries IH ] using value_ind;
    intros Hp Hw e He;
    try (destruct He as [<- | []]; reflexivity).
  - simpl in He.
    apply in_enumerate_paths in He as (j & item & e' & Hj & He' & ->).
    simpl. rewrite Nat2N.id, Hj.
    apply nth_error_In in Hj.
    rewrite Forall_forall in IH.
    destruct item;
      try (destruct He' as [<- | []]; reflexivity).
    apply (IH _ Hj (plain_item _ _ Hp Hj) (well_formed_item _ _ Hw Hj)).
    exact He'.
  - simpl in He.
    apply in_items_paths in He as (k & v & e' & Hin & He' & ->).
    destruct (plain_entry _ _ _ Hp Hin) as [Hk Hv].
    destruct (plain_key_text _ Hk) as [Ek _].
    simpl. rewrite <- Ek.
    assert (distinct_keys entries = true) as Hd.
    { simpl in Hw. now apply andb_true_iff in Hw. }
    rewrite (dict_get_in _ _ _ Hd Hin).
    rewrite Forall_forall in IH.
    apply (IH (k, v) Hin Hv (well_formed_entry _ _ _ Hw Hin)). exact He'.
Qed.

Lemma NoDup_map_cons {A : Type} (x : A) (l : list (list A)) :
  NoDup l -> NoDup (map (cons x) l).
Proof.
  induction 1 as [ | y l Hy _ IH ]; simpl; constructor; auto.
  intros H. apply in_map_iff in H as (z & E & Hz).
  injection E as ->. contradiction.
Qed.

Lemma map_fst_under s entries :
  map fst (map (under s) entries) = map (cons s) (map fst entries).
Proof. rewrite !map_map. reflexivity. Qed.

Lemma element_paths_entry recur item :
  (forall l, item <> VList l) ->
  element_paths recur item = entry_paths recur item.
Proof.
  destruct item; auto. intros H. now destruct (H l).
Qed.

(** No two entries are reached over the same segments. *)
Lemma leaf_paths_distinct v :
  plain v = true -> well_formed v = true ->
  NoDup (map fst (entry_paths leaf_paths v)).
Proof.
  induction v as [ | | | | | l IH | entries IH ] using value_ind;
    intros Hp Hw;
    try (repeat constructor; simpl; tauto).
  - simpl.
    assert (forall item, In item l -> plain item = true) as Hpl
      by (intros; eapply plain_item; eauto).
    assert (forall item, In item l -> well_formed item = true) as Hwl
      by (intros; eapply well_formed_item; eauto).
    clear Hp Hw. generalize 0 as i.
    induction l as [ | a l IHl ]; intros i; simpl; [ constructor | ].
    inversion IH as [ | ? ? Ha IH' ]; subst.
    rewrite map_app. apply NoDup_app.
    + unfold item_paths. rewrite map_fst_under. apply NoDup_map_cons.
      destruct a; try (repeat constructor; simpl; tauto).
      apply Ha; [ apply Hpl | apply Hwl ]; now left.
    + apply IHl; auto; intros; [ apply Hpl | apply Hwl ]; now right.
    + intros segs H1 H2.
      unfold item_paths in H1. rewrite map_fst_under in H1.
      apply in_map_iff in H1 as (segs1 & <- & _).
      apply in_map_iff in H2 as (e & E & He).
      apply in_enumerate_paths in He as (j & item & e' & _ & _ & ->).
      simpl in E. injection E as E _. lia.
  - simpl.
    assert (forall k v, In (k, v) entries ->
                        plain_key k = true /\ plain v = true) as Hpl
      by (intros; eapply plain_entry; eauto).
    assert (forall k v, In (k, v) entries -> well_formed v = true) as Hwl
      by (intros; eapply well_formed_entry; eauto).
    assert (distinct_keys entries = true) as Hd
      by (simpl in Hw; now apply andb_true_iff in Hw).
    clear Hp Hw.
    induction entries as [ | [k v] entries IHe ]; simpl; [ constructor | ].
    inversion IH as [ | ? ? Hv IH' ]; subst.
    simpl in Hd. apply andb_true_iff in Hd as [Hfresh Hd].
    apply negb_true_iff in Hfresh.
    rewrite map_app. apply NoDup_app.
    + rewrite map_fst_under. apply NoDup_map_cons.
      apply Hv; [ apply (Hpl k v) | apply (Hwl k v) ]; now left.
    + apply IHe; auto; intros k' v' Hin;
        [ apply (Hpl k' v') | apply (Hwl k' v') ]; now right.
    + intros segs H1 H2.
      rewrite map_fst_under in H1.
      apply in_map_iff in H1 as (segs1 & <- & _).
      apply in_map_iff in H2 as (e & E & He).
      apply in_items_paths in He as (k' & v' & e' & Hin & _ & ->).
      simpl in E. injection E as E _.
      destruct (Hpl k v (or_introl eq_refl)) as [Hk _].
      destruct (Hpl k' v' (or_intror Hin)) as [Hk' _].
      destruct (plain_key_text _ Hk) as [Ek _].
      destruct (plain_key_text _ Hk') as [Ek' _].
      assert (k = k') as -> by congruence.
      assert (existsb (fun kv => key_eqb k' (fst kv)) entries = true) as X.
      { apply existsb_exists. exists (k', v'). split; auto.
        apply key_eqb_refl. }
      congruence.
Qed.

(** Without a list inside a list, the entries are the scalar leaves. *)
Lemma leaf_paths_length v :
  flat_lists v = true -> length (entry_paths leaf_paths v) = leaves v.
Proof.
  induction v as [ | | | | | l IH | entries IH ] using value_ind;
    intros Hf; try reflexivity.
  - simpl in *. generalize 0 as i.
    induction l as [ | a l IHl ]; intros i; simpl; auto.
    inversion IH as [ | ? ? Ha IH' ]; subst.
    simpl in Hf. apply andb_true_iff in Hf as [Hfa Hfl].
    rewrite length_app, (IHl IH' Hfl). f_equal.
    unfold item_paths. rewrite length_map.
    destruct a; try reflexivity; try discriminate.
    now apply Ha.
  - simpl in *.
    induction entries as [ | [k v] entries IHe ]; simpl; auto.
    inversion IH as [ | ? ? Hv IH' ]; subst.
    simpl in Hf. apply andb_true_iff in Hf as [Hfv Hfe].
    rewrite length_app, length_map, (IHe IH' Hfe). f_equal.
    now apply Hv.
Qed.

(** ** [dict(items)] on distinct keys *)

Section OfItems.
Context {K V : Type} (eqb : K -> K -> bool).
Hypothesis eqb_eq : forall a b, eqb a b = true <-> a = b.

Lemma assoc_set_new k v (d : list (K * V)) :
  ~ In k (map fst d) -> assoc_set eqb k v d = d ++ [(k, v)].
Proof.
  induction d as [ | [k' v'] d IH ]; simpl; auto.
  intros H. destruct (eqb k k') eqn:E.
  - apply eqb_eq in E. subst k'. tauto.
  - rewrite IH; auto.
Qed.

Lemma fold_assoc_set_distinct (items : list (K * V)) :
  forall acc,
    NoDup (map fst (acc ++ items)) ->
    fold_left (fun d kv => assoc_set eqb (fst kv) (snd kv) d) items acc
    = acc ++ items.
Proof.
  induction items as [ | [k v] items IH ]; intros acc H; simpl.
  - now rewrite app_nil_r.
  - rewrite assoc_set_new.
    + rewrite IH; rewrite <- app_assoc; auto.
    + rewrite map_app in H. simpl in H.
      apply NoDup_remove_2 in H.
      intros Hin. apply H, in_or_app. now left.
Qed.

Lemma assoc_of_items_distinct (items : list (K * V)) :
  NoDup (map fst items) -> assoc_of_items eqb items = items.
Proof. intros H. now apply (fold_assoc_set_distinct items []). Qed.
End OfItems.

(** ** The flat view of a plain document *)

Lemma rendered_distinct prefix entries :
  (forall e, In e entries -> good_segs (fst e)) ->
  NoDup (map fst entries) ->
  NoDup (map fst (rendered prefix entries)).
Proof.
  intros Hgood Hd. unfold rendered. rewrite map_map. simpl.
  rewrite <- (map_map fst (fun segs => KStr (render prefix segs))).
  apply NoDup_map_NoDup_ForallPairs; auto.
  intros segs segs' H H' E.
  apply in_map_iff in H as (e & <- & He).
  apply in_map_iff in H' as (e' & <- & He').
  injection E as E.
  eapply render_inj; eauto.
Qed.

Lemma child_path_extend prefix k :
  plain_key k = true ->
  child_path (KStr prefix) "." k = KStr (extend prefix (SKey (key_text k))).
Proof.
  destruct k as [name | n]; try discriminate. intros _.
  unfold child_path. simpl. now destruct (Text.truthy prefix).
Qed.

Lemma flatten_entry_rendered v :
  plain v = true -> well_formed v = true ->
  forall new_key,
    flatten_entry (fun d' pk => flatten_dict d' pk ".") (KStr new_key) v
    = Return (rendered new_key (entry_paths leaf_paths v)).
Proof.
  pose proof leaf_paths_good as Hgood.
  pose proof leaf_paths_distinct as Hdistinct.
  induction v as [ | | | | | l IH | entries IH ] using value_ind;
    intros Hp Hw new_key; try reflexivity.
  - simpl.
    assert (forall item, In item l -> plain item = true) as Hpl
      by (intros; eapply plain_item; eauto).
    assert (forall item, In item l -> well_formed item = true) as Hwl
      by (intros; eapply well_formed_item; eauto).
    clear Hp Hw. generalize 0 as i.
    induction l as [ | a l IHl ]; intros i; simpl; auto.
    inversion IH as [ | ? ? Ha IH' ]; subst.
    rewrite IHl; auto.
    2:{ intros; apply Hpl; now right. }
    2:{ intros; apply Hwl; now right. }
    rewrite rendered_app. unfold item_paths. rewrite rendered_under.
    destruct a; try reflexivity.
    change (flatten_item (fun d' pk => flatten_dict d' pk ".")
              (KStr new_key) i (VDict d))
      with (flatten_entry (fun d' pk => flatten_dict d' pk ".")
              (KStr (extend new_key (SIdx i))) (VDict d)).
    rewrite (Ha (Hpl _ (or_introl eq_refl)) (Hwl _ (or_introl eq_refl))).
    reflexivity.
  - change (flatten_entry (fun d' pk => flatten_dict d' pk ".")
              (KStr new_key) (VDict entries))
      with (bind (flatten_items (fun d' pk => flatten_dict d' pk ".")
                    (KStr new_key) "." entries)
                 (fun items => Return (flat_of_items items))).
    assert (flatten_items (fun d' pk => flatten_dict d' pk ".")
              (KStr new_key) "." entries
            = Return (rendered new_key (items_paths leaf_paths entries)))
      as ->.
    { assert (forall k v, In (k, v) entries ->
                          plain_key k = true /\ plain v = true) as Hpl
        by (intros; eapply plain_entry; eauto).
      assert (forall k v, In (k, v) entries -> well_formed v = true) as Hwl
        by (intros; eapply well_formed_entry; eauto).
      clear Hp Hw.
      induction entries as [ | [k v] entries IHe ]; simpl; auto.
      inversion IH as [ | ? ? Hv IH' ]; subst.
      rewrite IHe; auto.
      2:{ intros k' v' Hin. apply (Hpl k' v'). now right. }
      2:{ intros k' v' Hin. apply (Hwl k' v'). now right. }
      destruct (Hpl k v (or_introl eq_refl)) as [Hk Hpv].
      rewrite rendered_app, rendered_under, (child_path_extend _ _ Hk).
      simpl in Hv.
      rewrite (Hv Hpv (Hwl k v (or_introl eq_refl))).
      reflexivity. }
    simpl. f_equal.
    apply assoc_of_items_distinct.
    + apply key_eqb_eq.
    + apply rendered_distinct.
      * apply (Hgood (VDict entries) Hp).
      * apply (Hdistinct (VDict entries) Hp Hw).
Qed.

(** The flat view of a plain, well-formed dictionary has one entry for
    each of [leaf_paths], in that order, under its rendered path. *)
Lemma flatten_rendered entries :
  plain (VDict entries) = true -> well_formed (VDict entries) = true ->
  flatten (VDict entries)
  = Return (rendered "" (leaf_paths (VDict entries))).
Proof.
  intros Hp Hw. apply (flatten_entry_rendered (VDict entries) Hp Hw "").
Qed.

(** ** Lists in the flat view *)






(** ** Paths that cannot coincide *)

Lemma string_length_app a b :
  String.length (a ++ b) = (String.length a + String.length b)%nat.
Proof. induction a as [ | c a IH ]; simpl; congruence. Qed.

Lemma string_app_assoc a b c :
  ((a ++ b) ++ c)%string = (a ++ (b ++ c))%string.
Proof. induction a as [ | x a IH ]; simpl; congruence. Qed.

Lemma string_app_nil_r a : (a ++ "")%string = a.
Proof. induction a as [ | c a IH ]; simpl; congruence. Qed.

Lemma string_app_inv_head a b c :
  (a ++ b)%string = (a ++ c)%string -> b = c.
Proof.
  induction a as [ | x a IH ]; simpl; intros E; auto.
  injection E as E. auto.
Qed.

(** Plain keys are legible: the condition of this section asks less. *)
Lemma plain_legible v : plain v = true -> legible_keys v = true.
Proof.
  induction v as [ | | | | | l IH | entries IH ] using value_ind;
    intros Hp; auto; simpl in *.
  - rewrite forallb_forall in *. rewrite Forall_forall in IH. auto.
  - rewrite forallb_forall in *. rewrite Forall_forall in IH.
    intros [k v] Hin. specialize (Hp _ Hin). simpl in *.
    apply andb_true_iff in Hp as [Hk Hv].
    apply andb_true_iff. split; [ | now apply (IH _ Hin) ].
    destruct k as [s | n]; simpl in *; try discriminate.
    apply andb_true_iff in Hk as [Hc _].
    destruct (clean_spec s Hc) as (Ht & Hdot & Hopen & _).
    unfold legible. now rewrite Ht, Hdot, Hopen.
Qed.

Lemma free_has_char (stop : ascii -> bool) s :
  (forall c, stop c = true -> Text.has_char c s = false) ->
  Text.all_chars (fun c => negb (stop c)) s = true.
Proof.
  induction s as [ | a s IH ]; intros H; simpl; auto.
  apply andb_true_iff. split.
  - destruct (stop a) eqn:E; auto.
    specialize (H a E). simpl in H. now rewrite Ascii.eqb_refl in H.
  - apply IH. intros c Hc. specialize (H c Hc). simpl in H.
    now apply orb_false_iff in H.
Qed.

Lemma legible_spec s :
  legible s = true ->
  Text.truthy s = true /\
  Text.all_chars (fun c => negb (opener c)) s = true.
Proof.
  unfold legible. rewrite !andb_true_iff, !negb_true_iff.
  intros [[Ht Hdot] Hopen]. split; auto.
  apply free_has_char. intros c Hc.
  apply orb_true_iff in Hc as [Hc | Hc]; apply Ascii.eqb_eq in Hc;
    now subst c.
Qed.

Lemma str_of_nat_closed i :
  Text.all_chars (fun c => negb (closer c)) (Text.str_of_nat i) = true.
Proof.
  apply free_has_char. intros c Hc. apply Ascii.eqb_eq in Hc. subst c.
  now destruct (clean_spec _ (str_of_N_clean (N.of_nat i)))
    as (_ & _ & _ & H).
Qed.

(** Text that runs up to a stop character is cut in one way only. *)
Lemma cut_unique (stop : ascii -> bool) a :
  forall a' r r',
    Text.all_chars (fun c => negb (stop c)) a = true ->
    Text.all_chars (fun c => negb (stop c)) a' = true ->
    headed stop r = true -> headed stop r' = true ->
    (a ++ r)%string = (a' ++ r')%string ->
    a = a' /\ r = r'.
Proof.
  induction a as [ | c a IH ]; intros [ | c' a' ] r r' Ha Ha' Hr Hr' E;
    simpl in *.
  - auto.
  - subst r. simpl in Hr.
    apply andb_true_iff in Ha' as [X _]. now rewrite Hr in X.
  - subst r'. simpl in Hr'.
    apply andb_true_iff in Ha as [X _]. now rewrite Hr' in X.
  - injection E as -> E.
    apply andb_true_iff in Ha as [_ Ha].
    apply andb_true_iff in Ha' as [_ Ha'].
    destruct (IH _ _ _ Ha Ha' Hr Hr' E) as [-> ->]. auto.
Qed.

Lemma pieces_headed segs : headed opener (pieces segs) = true.
Proof. destruct segs as [ | [name | i] segs ]; reflexivity. Qed.

Lemma key_piece_unique name name' rest rest' :
  legible name = true -> legible name' = true ->
  headed opener rest = true -> headed opener rest' = true ->
  (name ++ rest)%string = (name' ++ rest')%string ->
  name = name' /\ rest = rest'.
Proof.
  intros H H'.
  apply cut_unique; now apply legible_spec.
Qed.

Lemma index_piece_unique i j rest rest' :
  ((Text.str_of_nat i ++ "]") ++ rest)%string
  = ((Text.str_of_nat j ++ "]") ++ rest')%string ->
  i = j /\ rest = rest'.
Proof.
  rewrite !string_app_assoc. intros E.
  apply (cut_unique closer) in E as [Ei Er];
    try apply str_of_nat_closed; try reflexivity.
  split; [ now apply str_of_nat_inj | ].
  now injection Er.
Qed.

Lemma pieces_inj segs :
  forall segs',
    legible_segs segs -> legible_segs segs' ->
    pieces segs = pieces segs' -> segs = segs'.
Proof.
  induction segs as [ | s segs IH ]; intros [ | t segs' ] H H' E; auto.
  - destruct t; discriminate E.
  - destruct s; discriminate E.
  - inversion H as [ | ? ? Hs Hrest ]; subst.
    inversion H' as [ | ? ? Ht Hrest' ]; subst.
    destruct s as [name | i], t as [name' | j];
      cbn [pieces seg_piece append] in E; try discriminate E.
    + injection E as E.
      apply key_piece_unique in E as [-> E];
        auto using pieces_headed.
      f_equal. auto.
    + injection E as E.
      apply index_piece_unique in E as [-> E].
      f_equal. auto.
Qed.

Lemma truthy_app a b :
  Text.truthy a = true -> Text.truthy (a ++ b) = true.
Proof. now destruct a. Qed.

Lemma extend_truthy prefix s :
  Text.truthy prefix = true ->
  extend prefix s = (prefix ++ seg_piece s)%string.
Proof. intros H. destruct s; simpl; now rewrite ?H. Qed.

Lemma render_truthy segs :
  forall prefix,
    Text.truthy prefix = true ->
    render prefix segs = (prefix ++ pieces segs)%string.
Proof.
  induction segs as [ | s segs IH ]; intros prefix H; unfold render; simpl.
  - now rewrite string_app_nil_r.
  - fold (render (extend prefix s) segs).
    rewrite (extend_truthy _ _ H), IH by now apply truthy_app.
    apply string_app_assoc.
Qed.

(** Two lists of legible segments rendered under one prefix to the same
    path are the same list, whether or not a name is all digits. *)
Lemma render_inj_legible prefix segs segs' :
  legible_segs segs -> legible_segs segs' ->
  render prefix segs = render prefix segs' -> segs = segs'.
Proof.
  intros H H' E.
  destruct (Text.truthy prefix) eqn:T.
  - rewrite !render_truthy in E by auto.
    apply string_app_inv_head in E. now apply pieces_inj.
  - destruct prefix; try discriminate T. clear T.
    assert (forall s,
               legible_seg s = true ->
               Text.truthy (extend "" s) = true) as Hstart.
    { intros [name | i] Hs; simpl; auto.
      now apply legible_spec in Hs. }
    destruct segs as [ | s segs ], segs' as [ | t segs' ]; auto.
    + inversion H' as [ | ? ? Ht _ ]; subst.
      unfold render in E. simpl in E.
      fold (render (extend "" t) segs') in E.
      rewrite render_truthy in E by now apply Hstart.
      pose proof (Hstart t Ht) as X.
      destruct (extend "" t); discriminate.
    + inversion H as [ | ? ? Hs _ ]; subst.
      unfold render in E. simpl in E.
      fold (render (extend "" s) segs) in E.
      rewrite render_truthy in E by now apply Hstart.
      pose proof (Hstart s Hs) as X.
      destruct (extend "" s); discriminate.
    + inversion H as [ | ? ? Hs Hrest ]; subst.
      inversion H' as [ | ? ? Ht Hrest' ]; subst.
      unfold render in E. simpl in E.
      fold (render (extend "" s) segs) in E.
      fold (render (extend "" t) segs') in E.
      rewrite !render_truthy in E
        by now apply Hstart.
      destruct s as [name | i], t as [name' | j]; simpl in E.
      * apply key_piece_unique in E as [-> E];
          auto using pieces_headed.
        f_equal. now apply pieces_inj.
      * simpl in Hs. apply legible_spec in Hs as [Hn Hfree].
        destruct name as [ | c name ]; try discriminate Hn.
        simpl in E. injection E as -> _. discriminate Hfree.
      * simpl in Ht. apply legible_spec in Ht as [Hn Hfree].
        destruct name' as [ | c name' ]; try discriminate Hn.
        simpl in E. injection E as <- _. discriminate Hfree.
      * injection E as E.
        apply index_piece_unique in E as [-> E].
        f_equal. now apply pieces_inj.
Qed.

Lemma rendered_distinct_legible prefix entries :
  (forall e, In e entries -> legible_segs (fst e)) ->
  NoDup (map fst entries) ->
  NoDup (map fst (rendered prefix entries)).
Proof.
  intros Hleg Hd. unfold rendered. rewrite map_map. simpl.
  rewrite <- (map_map fst (fun segs => KStr (render prefix segs))).
  apply NoDup_map_NoDup_ForallPairs; auto.
  intros segs segs' H H' E.
  apply in_map_iff in H as (e & <- & He).
  apply in_map_iff in H' as (e' & <- & He').
  injection E as E.
  eapply render_inj_legible; eauto.
Qed.

Lemma legible_key_text k :
  legible_key k = true ->
  k = KStr (key_text k) /\ legible_seg (SKey (key_text k)) = true.
Proof. destruct k; simpl; try discriminate. auto. Qed.

Lemma legible_entry entries k v :
  legible_keys (VDict entries) = true -> In (k, v) entries ->
  legible_key k = true /\ legible_keys v = true.
Proof.
  simpl. rewrite forallb_forall. intros H Hin.
  apply (H (k, v)) in Hin. now apply andb_true_iff in Hin.
Qed.

Lemma legible_item l item :
  legible_keys (VList l) = true -> In item l -> legible_keys item = true.
Proof. simpl. rewrite forallb_forall. auto. Qed.

Lemma leaf_paths_legible v :
  legible_keys v = true ->
  forall e, In e (entry_paths leaf_paths v) -> legible_segs (fst e).
Proof.
  induction v as [ | | | | | l IH | entries IH ] using value_ind;
    intros Hp e He;
    try (destruct He as [<- | []]; constructor).
  - simpl in He.
    apply in_enumerate_paths in He as (j & item & e' & Hj & He' & ->).
    apply nth_error_In in Hj.
    constructor; auto. simpl.
    rewrite Forall_forall in IH.
    destruct item;
      try (destruct He' as [<- | []]; constructor).
    apply (IH _ Hj (legible_item _ _ Hp Hj)). exact He'.
  - simpl in He.
    apply in_items_paths in He as (k & v & e' & Hin & He' & ->).
    destruct (legible_entry _ _ _ Hp Hin) as [Hk Hv].
    rewrite Forall_forall in IH.
    constructor.
    + now apply legible_key_text.
    + apply (IH (k, v) Hin Hv). exact He'.
Qed.

Lemma leaf_paths_distinct_legible v :
  legible_keys v = true -> well_formed v = true ->
  NoDup (map fst (entry_paths leaf_paths v)).
Proof.
  induction v as [ | | | | | l IH | entries IH ] using value_ind;
    intros Hp Hw;
    try (repeat constructor; simpl; tauto).
  - simpl.
    assert (forall item, In item l -> legible_keys item = true) as Hpl
      by (intros; eapply legible_item; eauto).
    assert (forall item, In item l -> well_formed item = true) as Hwl
      by (intros; eapply well_formed_item; eauto).
    clear Hp Hw. generalize 0 as i.
    induction l as [ | a l IHl ]; intros i; simpl; [ constructor | ].
    inversion IH as [ | ? ? Ha IH' ]; subst.
    rewrite map_app. apply NoDup_app.
    + unfold item_paths. rewrite map_fst_under. apply NoDup_map_cons.
      destruct a; try (repeat constructor; simpl; tauto).
      apply Ha; [ apply Hpl | apply Hwl ]; now left.
    + apply IHl; auto; intros; [ apply Hpl | apply Hwl ]; now right.
    + intros segs H1 H2.
      unfold item_paths in H1. rewrite map_fst_under in H1.
      apply in_map_iff in H1 as (segs1 & <- & _).
      apply in_map_iff in H2 as (e & E & He).
      apply in_enumerate_paths in He as (j & item & e' & _ & _ & ->).
      simpl in E. injection E as E _. lia.
  - simpl.
    assert (forall k v, In (k, v) entries ->
                        legible_key k = true /\ legible_keys v = true)
      as Hpl by (intros; eapply legible_entry; eauto).
    assert (forall k v, In (k, v) entries -> well_formed v = true) as Hwl
      by (intros; eapply well_formed_entry; eauto).
    assert (distinct_keys entries = true) as Hd
      by (simpl in Hw; now apply andb_true_iff in Hw).
    clear Hp Hw.
    induction entries as [ | [k v] entries IHe ]; simpl; [ constructor | ].
    inversion IH as [ | ? ? Hv IH' ]; subst.
    simpl in Hd. apply andb_true_iff in Hd as [Hfresh Hd].
    apply negb_true_iff in Hfresh.
    rewrite map_app. apply NoDup_app.
    + rewrite map_fst_under. apply NoDup_map_cons.
      apply Hv; [ apply (Hpl k v) | apply (Hwl k v) ]; now left.
    + apply IHe; auto; intros k' v' Hin;
        [ apply (Hpl k' v') | apply (Hwl k' v') ]; now right.
    + intros segs H1 H2.
      rewrite map_fst_under in H1.
      apply in_map_iff in H1 as (segs1 & <- & _).
      apply in_map_iff in H2 as (e & E & He).
      apply in_items_paths in He as (k' & v' & e' & Hin & _ & ->).
      simpl in E. injection E as E _.
      destruct (Hpl k v (or_introl eq_refl)) as [Hk _].
      destruct (Hpl k' v' (or_intror Hin)) as [Hk' _].
      destruct (legible_key_text _ Hk) as [Ek _].
      destruct (legible_key_text _ Hk') as [Ek' _].
      assert (k = k') as -> by congruence.
      assert (existsb (fun kv => key_eqb k' (fst kv)) entries = true) as X.
      { apply existsb_exists. exists (k', v'). split; auto.
        apply key_eqb_refl. }
      congruence.
Qed.

Lemma child_path_legible prefix k :
  legible_key k = true ->
  child_path (KStr prefix) "." k = KStr (extend prefix (SKey (key_text k))).
Proof.
  destruct k as [name | n]; try discriminate. intros _.
  unfold child_path. simpl. now destruct (Text.truthy prefix).
Qed.

Lemma flatten_entry_legible v :
  legible_keys v = true -> well_formed v = true ->
  forall new_key,
    flatten_entry (fun d' pk => flatten_dict d' pk ".") (KStr new_key) v
    = Return (rendered new_key (entry_paths leaf_paths v)).
Proof.
  pose proof leaf_paths_legible as Hleg.
  pose proof leaf_paths_distinct_legible as Hdistinct.
  induction v as [ | | | | | l IH | entries IH ] using value_ind;
    intros Hp Hw new_key; try reflexivity.
  - simpl.
    assert (forall item, In item l -> legible_keys item = true) as Hpl
      by (intros; eapply legible_item; eauto).
    assert (forall item, In item l -> well_formed item = true) as Hwl
      by (intros; eapply well_formed_item; eauto).
    clear Hp Hw. generalize 0 as i.
    induction l as [ | a l IHl ]; intros i; simpl; auto.
    inversion IH as [ | ? ? Ha IH' ]; subst.
    rewrite IHl; auto.
    2:{ intros; apply Hpl; now right. }
    2:{ intros; apply Hwl; now right. }
    rewrite rendered_app. unfold item_paths. rewrite rendered_under.
    destruct a; try reflexivity.
    change (flatten_item (fun d' pk => flatten_dict d' pk ".")
              (KStr new_key) i (VDict d))
      with (flatten_entry (fun d' pk => flatten_dict d' pk ".")
              (KStr (extend new_key (SIdx i))) (VDict d)).
    rewrite (Ha (Hpl _ (or_introl eq_refl)) (Hwl _ (or_introl eq_refl))).
    reflexivity.
  - change (flatten_entry (fun d' pk => flatten_dict d' pk ".")
              (KStr new_key) (VDict entries))
      with (bind (flatten_items (fun d' pk => flatten_dict d' pk ".")
                    (KStr new_key) "." entries)
                 (fun items => Return (flat_of_items items))).
    assert (flatten_items (fun d' pk => flatten_dict d' pk ".")
              (KStr new_key) "." entries
            = Return (rendered new_key (items_paths leaf_paths entries)))
      as ->.
    { assert (forall k v, In (k, v) entries ->
                          legible_key k = true /\ legible_keys v = true)
        as Hpl by (intros; eapply legible_entry; eauto).
      assert (forall k v, In (k, v) entries -> well_formed v = true) as Hwl
        by (intros; eapply well_formed_entry; eauto).
      clear Hp Hw.
      induction entries as [ | [k v] entries IHe ]; simpl; auto.
      inversion IH as [ | ? ? Hv IH' ]; subst.
      rewrite IHe; auto.
      2:{ intros k' v' Hin. apply (Hpl k' v'). now right. }
      2:{ intros k' v' Hin. apply (Hwl k' v'). now right. }
      destruct (Hpl k v (or_introl eq_refl)) as [Hk Hpv].
      rewrite rendered_app, rendered_under, (child_path_legible _ _ Hk).
      simpl in Hv.
      rewrite (Hv Hpv (Hwl k v (or_introl eq_refl))).
      reflexivity. }
    simpl. f_equal.
    apply assoc_of_items_distinct.
    + apply key_eqb_eq.
    + apply rendered_distinct_legible.
      * apply (Hleg (VDict entries) Hp).
      * apply (Hdistinct (VDict entries) Hp Hw).
Qed.

(** The flat view of a well-formed dictionary with legible keys has one
    entry for each of [leaf_paths], in that order. *)
Lemma flatten_legible entries :
  legible_keys (VDict entries) = true ->
  well_formed (VDict entries) = true ->
  flatten (VDict entries)
  = Return (rendered "" (leaf_paths (VDict entries))).
Proof.
  intros Hp Hw. apply (flatten_entry_legible (VDict entries) Hp Hw "").
Qed.

(** ** Counting the entries *)

(** C6, as the code has it.  For a dictionary whose keys are legible
    (text that is not empty and has neither the point nor the opening
    bracket; a key may be all digits) and in which no list is an element
    of a list, [flatten_dict] returns as many entries as the document has
    scalar leaves. *)
Theorem flatten_counts_leaves entries :
  legible_keys (VDict entries) = true ->
  well_formed (VDict entries) = true ->
  flat_lists (VDict entries) = true ->
  exists view,
    flatten (VDict entries) = Return view /\
    length view = leaves (VDict entries).
Proof.
  intros Hp Hw Hf.
  exists (rendered "" (leaf_paths (VDict entries))).
  split.
  - now apply flatten_legible.
  - unfold rendered. rewrite length_map.
    apply (leaf_paths_length (VDict entries) Hf).
Qed.

Lemma flatten_counts_leaves_witness :
  exists view,
    flatten (VDict [(KStr "0", VInt 1);
                    (KStr "1",
                     VDict [(KStr "2", VInt 5);
                            (KStr "07",
                             VList [VInt 1;
                                    VDict [(KStr "3", VNone)]])])])
    = Return view /\
    length view = 4.
Proof.
  apply (flatten_counts_leaves
           [(KStr "0", VInt 1);
            (KStr "1",
             VDict [(KStr "2", VInt 5);
                    (KStr "07",
                     VList [VInt 1; VDict [(KStr "3", VNone)]])])]);
    reflexivity.
Defined.

(** C6 as stated fails: two scalar leaves, one entry. *)
Lemma list_in_list_miscounted :
  flatten Sample.nested_list_doc
  = Return [(KStr "a[0]", VList [VInt 1; VInt 2])] /\
  length [(KStr "a[0]", VList [VInt 1; VInt 2])] = 1 /\
  leaves Sample.nested_list_doc = 2.
Proof. repeat split. Qed.

(** Each condition on the keys is needed: under an empty key, a key with
    a point or a key with an opening bracket two leaves come to one path,
    and [dict(items)] keeps one entry for the two. *)
Lemma illegible_keys_merge_entries :
  flatten (VDict [(KStr "", VDict [(KStr "a", VInt 1)]);
                  (KStr "a", VInt 2)])
  = Return [(KStr "a", VInt 2)] /\
  flatten (VDict [(KStr "a.b", VInt 1);
                  (KStr "a", VDict [(KStr "b", VInt 2)])])
  = Return [(KStr "a.b", VInt 2)] /\
  flatten (VDict [(KStr "a[0]", VInt 1);
                  (KStr "a", VList [VInt 2])])
  = Return [(KStr "a[0]", VInt 2)].
Proof. repeat split. Qed.

(** ** The round trip *)

Section RoundTrip.
Variable int_of_str : string -> option Z.
Variable float_of_str : string -> option float.

Lemma set_all_unchanged d (entries : flat_view) :
  (forall path v,
      In (path, v) entries ->
      exists text,
        path = KStr text /\
        set_nested_value int_of_str float_of_str d text v = (d, Return tt)) ->
  set_all int_of_str float_of_str d entries = (d, Return tt).
Proof.
  induction entries as [ | [path v] entries IH ]; intros H; simpl; auto.
  destruct (H path v (or_introl eq_refl)) as (text & -> & ->).
  apply IH. intros path' v' Hin. apply H. now right.
Qed.

(** Writing an entry of the flat view back changes nothing. *)
Lemma set_entry_back entries e :
  plain (VDict entries) = true -> well_formed (VDict entries) = true ->
  In e (leaf_paths (VDict entries)) ->
  set_nested_value int_of_str float_of_str
    (VDict entries) (render "" (fst e)) (snd e)
  = (VDict entries, Return tt).
Proof.
  intros Hp Hw He.
  pose proof (leaf_paths_good (VDict entries) Hp e He) as Hgood.
  pose proof (leaf_paths_node (VDict entries) Hp Hw e He) as Hnode.
  assert (map seg_key (fst e) <> []) as Hne.
  { simpl in He.
    apply in_items_paths in He as (k & v & e' & _ & _ & ->). discriminate. }
  unfold set_nested_value.
  rewrite (path_keys_render (fst e) "" Hgood). simpl.
  destruct (set_keys_existing int_of_str float_of_str
              (map seg_text (fst e)) (map seg_key (fst e))
              (VDict entries) (snd e) (snd e)
              (address_segs _ Hgood) Hne Hnode) as (d' & R & _ & Hsame).
  rewrite R. f_equal. apply Hsame.
  destruct (is_number (snd e)) eqn:E; auto.
  now apply coerce_number.
Qed.

#[local] Abbreviation set_all := (set_all int_of_str float_of_str).

(** C1, as the code has it.  For a dictionary whose keys are plain, the
    flat view is computed, every write of one of its entries back onto
    the document returns, and the document is then as it was. *)
Theorem flatten_set_round_trip entries :
  plain (VDict entries) = true ->
  well_formed (VDict entries) = true ->
  exists view,
    flatten (VDict entries) = Return view /\
    set_all (VDict entries) view = (VDict entries, Return tt).
Proof.
  intros Hp Hw.
  exists (rendered "" (leaf_paths (VDict entries))).
  split.
  - now apply flatten_rendered.
  - apply set_all_unchanged. intros path v Hin.
    apply in_map_iff in Hin as (e & E & He).
    injection E as <- <-.
    exists (render "" (fst e)). split; auto.
    now apply set_entry_back.
Qed.
End RoundTrip.

Lemma flatten_set_round_trip_witness :
  exists view,
    flatten Sample.meters_doc = Return view /\
    Sample.set_all Sample.meters_doc view = (Sample.meters_doc, Return tt).
Proof.
  apply (flatten_set_round_trip Literal.int_of_str Literal.float_of_str
           [(KStr "meters",
             VList [VDict [(KStr "quantity", VInt 1)];
                    VDict [(KStr "quantity", VInt 2)]])]);
    reflexivity.
Defined.

(** C1 as stated fails: the one entry of [{"a.b": 1}] has the path [a.b],
    which is read back as two segments; the write makes an empty [a] and
    raises KeyError. *)
Lemma dotted_key_breaks_round_trip :
  flatten Sample.dotted_key_doc = Return [(KStr "a.b", VInt 1)] /\
  Sample.set_all Sample.dotted_key_doc [(KStr "a.b", VInt 1)]
  = (VDict [(KStr "a.b", VInt 1); (KStr "a", VDict [])], Raise KeyError).
Proof. split; reflexivity. Qed.

(** * More about the codec *)

(** ** Paths made of separators *)

Lemma split_pieces_chars p c s :
  Text.all_chars p s = true ->
  Forall (fun piece => Text.all_chars p piece = true) (Text.split c s).
Proof.
  induction s as [ | x s IH ]; simpl; intros H.
  - repeat constructor.
  - apply andb_true_iff in H as [Hx Hs]. specialize (IH Hs).
    destruct (Ascii.eqb x c).
    + constructor; auto.
    + destruct (Text.split c s) as [ | piece pieces ].
      * repeat constructor. simpl. now rewrite Hx.
      * inversion IH; subst. constructor; auto. simpl. now rewrite Hx.
Qed.

Lemma split_pieces_free c s :
  Forall (fun piece => Text.has_char c piece = false) (Text.split c s).
Proof.
  induction s as [ | x s IH ]; simpl.
  - repeat constructor.
  - destruct (Ascii.eqb x c) eqn:E.
    + constructor; auto.
    + destruct (Text.split c s) as [ | piece pieces ].
      * repeat constructor. simpl. now rewrite E.
      * inversion IH; subst. constructor; auto. simpl. now rewrite E.
Qed.

Lemma remove_char_chars p c s :
  Text.all_chars p s = true -> Text.all_chars p (Text.remove_char c s) = true.
Proof.
  induction s as [ | x s IH ]; simpl; auto.
  intros H. apply andb_true_iff in H as [Hx Hs].
  destruct (Ascii.eqb x c); simpl; auto. now rewrite Hx, IH.
Qed.

Lemma remove_char_free c s : Text.has_char c (Text.remove_char c s) = false.
Proof.
  induction s as [ | x s IH ]; simpl; auto.
  destruct (Ascii.eqb x c) eqn:E; simpl; auto. now rewrite E.
Qed.

(** Text of separators that holds none of the three is empty. *)
Lemma separators_free_empty s :
  Text.all_chars separator s = true ->
  Text.has_char "." s = false -> Text.has_char "[" s = false ->
  Text.has_char "]" s = false ->
  s = EmptyString.
Proof.
  destruct s as [ | x s ]; auto. simpl. unfold separator.
  intros H Hp Ho Hc.
  apply orb_false_iff in Hp as [Hp _].
  apply orb_false_iff in Ho as [Ho _].
  apply orb_false_iff in Hc as [Hc _].
  rewrite Hp, Ho, Hc in H. discriminate.
Qed.

Lemma filter_truthy_empty l :
  Forall (fun piece => piece = EmptyString) l -> filter Text.truthy l = [].
Proof. induction 1 as [ | x l -> _ IH ]; simpl; auto. Qed.

Lemma split_pieces_keep c q s :
  Text.has_char q s = false ->
  Forall (fun piece => Text.has_char q piece = false) (Text.split c s).
Proof.
  induction s as [ | x s IH ]; simpl; intros H.
  - repeat constructor.
  - apply orb_false_iff in H as [Hx Hs]. specialize (IH Hs).
    destruct (Ascii.eqb x c).
    + constructor; auto.
    + destruct (Text.split c s) as [ | piece pieces ].
      * repeat constructor. simpl. now rewrite Hx.
      * inversion IH; subst. constructor; auto. simpl. now rewrite Hx.
Qed.

Lemma path_keys_separators path :
  Text.all_chars separator path = true -> path_keys path = [].
Proof.
  intros H. unfold path_keys.
  apply filter_truthy_empty.
  pose proof (remove_char_chars separator "]" path H) as Hchars.
  pose proof (remove_char_free "]" path) as Hclose.
  set (s := Text.remove_char "]" path) in *.
  pose proof (split_pieces_chars separator "[" s Hchars) as H1.
  pose proof (split_pieces_free "[" s) as H2.
  pose proof (split_pieces_keep "[" "]" s Hclose) as H3.
  induction (Text.split "[" s) as [ | piece pieces IH ]; simpl.
  - constructor.
  - inversion H1; inversion H2; inversion H3; subst.
    apply Forall_app. split; auto.
    pose proof (split_pieces_chars separator "." piece) as P1.
    pose proof (split_pieces_free "." piece) as P2.
    pose proof (split_pieces_keep "." "[" piece) as P3.
    pose proof (split_pieces_keep "." "]" piece) as P4.
    specialize (P1 ltac:(assumption)).
    specialize (P3 ltac:(assumption)).
    specialize (P4 ltac:(assumption)).
    induction (Text.split "." piece) as [ | t ts IHt ]; constructor.
    + inversion P1; inversion P2; inversion P3; inversion P4; subst.
      now apply separators_free_empty.
    + inversion P1; inversion P2; inversion P3; inversion P4; subst.
      now apply IHt.
Qed.

(** ** Writes that change nothing, and reads after writes *)

Section MoreWrites.
Variable int_of_str : string -> option Z.
Variable float_of_str : string -> option float.

#[local] Abbreviation coerce := (coerce int_of_str float_of_str).
#[local] Abbreviation set_keys := (set_keys int_of_str float_of_str).
#[local] Abbreviation set_nested_value :=
  (set_nested_value int_of_str float_of_str).

(** A walk through nodes that exist hands the document back as it was
    when the rest of the call leaves the node it reached as it was. *)
Lemma set_keys_through_same pre :
  forall addr d node keys val how,
    address pre = Some addr ->
    node_at addr d = Some node ->
    keys <> [] ->
    set_keys keys node val = (node, how) ->
    set_keys (pre ++ keys) d val = (d, how).
Proof.
  induction pre as [ | key pre IH ];
    intros addr d node keys val how Ha Hn Hk R.
  - injection Ha as <-. injection Hn as <-. exact R.
  - simpl in Ha.
    destruct (resolve key) as [k | ] eqn:Rk; try discriminate.
    destruct (address pre) as [addr' | ] eqn:Ha'; try discriminate.
    injection Ha as <-.
    destruct (node_at_step _ _ _ _ Hn) as (child & Sub & Hn' & Hc & W).
    destruct (pre ++ keys) as [ | next_key rest ] eqn:Eq.
    { apply app_eq_nil in Eq. tauto. }
    change ((key :: pre) ++ keys) with (key :: (pre ++ keys)).
    rewrite Eq, set_keys_walk, Rk, W, Sub, <- Eq.
    rewrite (IH addr' child node keys val how eq_refl Hn' Hk R).
    now rewrite (put_back_present d k child Sub).
Qed.

(** X1.  After a call that returns, [get_nested_value] at the same path
    returns what was stored: the value as given, or its reading as a number
    when the node held a number before. *)
Theorem get_after_set d path val d' :
  set_nested_value d path val = (d', Return tt) ->
  exists old,
    get_nested_value d path = Return old /\
    get_nested_value d' path
    = Return (if is_number old then coerce val else val).
Proof.
  intros H. unfold set_nested_value, get_nested_value in *.
  destruct (set_keys_target int_of_str float_of_str _ _ _ _ H)
    as (target & old & Ha & Ht & Hn).
  destruct (set_keys_existing int_of_str float_of_str _ _ _ _ val Ha Ht Hn)
    as (d'' & R & Hs & _).
  assert (d'' = d') as -> by congruence.
  exists old. split; eapply node_at_get; eauto.
Qed.

(** X2.  A value that is not text is stored as it is at any node that
    exists, whatever the node held. *)
Theorem set_value_as_is d path val target old :
  address (path_keys path) = Some target -> target <> [] ->
  node_at target d = Some old ->
  (forall s, val <> VStr s) ->
  exists d',
    set_nested_value d path val = (d', Return tt) /\
    get_nested_value d' path = Return val.
Proof.
  intros Ha Ht Hn Hval. unfold set_nested_value, get_nested_value.
  destruct (set_keys_existing int_of_str float_of_str _ _ _ _ val Ha Ht Hn)
    as (d' & R & Hs & _).
  exists d'. split; auto.
  apply (node_at_get _ _ _ _ Ha).
  rewrite Hs. destruct (is_number old); auto.
  destruct val; auto. now destruct (Hval s).
Qed.

(** X3.  A path of points and brackets only has no segment: the read
    returns the whole document, the write raises IndexError and changes
    nothing. *)
Theorem separators_only_path d path val :
  Text.all_chars separator path = true ->
  get_nested_value d path = Return d /\
  set_nested_value d path val = (d, Raise IndexError).
Proof.
  intros H. unfold get_nested_value, set_nested_value.
  now rewrite (path_keys_separators path H).
Qed.

(** X4.  When the last segment cannot be read from the node the walk
    reaches through existing nodes (a key the object lacks, an index past
    the end of the list, a key on a list), the call raises that error and the
    document is left as it was: nothing is added. *)
Theorem unreadable_last_segment d path val pre last_key addr node k e :
  path_keys path = pre ++ [last_key] ->
  address pre = Some addr ->
  node_at addr d = Some node ->
  resolve last_key = Return k ->
  subscript node k = Raise e ->
  set_nested_value d path val = (d, Raise e).
Proof.
  intros Hp Ha Hn Rk Sub. unfold set_nested_value. rewrite Hp.
  apply (set_keys_through_same pre addr d node [last_key] val (Raise e));
    auto; try discriminate.
  now rewrite set_keys_last, Rk, Sub.
Qed.

(** X5.  An index into a text leaf is read as the character there, and
    cannot be written: the write raises TypeError and changes nothing. *)
Theorem index_into_text d path val pre last_key addr s n c :
  path_keys path = pre ++ [last_key] ->
  address pre = Some addr ->
  node_at addr d = Some (VStr s) ->
  resolve last_key = Return (KInt n) ->
  String.get (N.to_nat n) s = Some c ->
  get_nested_value d path = Return (VStr (String c EmptyString)) /\
  set_nested_value d path val = (d, Raise TypeError).
Proof.
  intros Hp Ha Hn Rk Hc. unfold get_nested_value, set_nested_value.
  rewrite Hp. split.
  - rewrite (get_keys_app pre [last_key] d (VStr s)).
    + simpl. now rewrite Rk, Hc.
    + eapply node_at_get; eauto.
  - apply (set_keys_through_same pre addr d (VStr s) [last_key] val
             (Raise TypeError)); auto; try discriminate.
    rewrite set_keys_last, Rk. simpl. now rewrite Hc.
Qed.

(** X6.  The fallback stays: once text that is no number has been written
    over a number, the leaf is text, and text written next is stored as it
    is, also when it reads as a number. *)
Theorem fallback_is_kept entries path raw raw' old :
  get_nested_value (VDict entries) path = Return old ->
  is_number old = true ->
  coerce (VStr raw) = VStr raw ->
  exists d1 d2,
    set_nested_value (VDict entries) path (VStr raw) = (d1, Return tt) /\
    set_nested_value d1 path (VStr raw') = (d2, Return tt) /\
    get_nested_value d2 path = Return (VStr raw').
Proof.
  intros G Hnum Hfail. unfold get_nested_value, set_nested_value in *.
  destruct (get_number_node _ _ _ G Hnum) as (target & Ha & Hn).
  assert (target <> []) as Ht.
  { intros ->. injection Hn as <-. discriminate. }
  destruct (set_keys_existing int_of_str float_of_str _ _ _ _ (VStr raw)
              Ha Ht Hn) as (d1 & R1 & Hs1 & _).
  rewrite Hnum, Hfail in Hs1.
  destruct (set_keys_existing int_of_str float_of_str _ _ _ _ (VStr raw')
              Ha Ht Hs1) as (d2 & R2 & Hs2 & _).
  exists d1, d2. repeat split; auto.
  apply (node_at_get _ _ _ _ Ha Hs2).
Qed.
End MoreWrites.

Lemma get_after_set_witness :
  Sample.set_nested_value (Sample.quantity_doc (VInt 10))
    Sample.quantity_path (VStr "3.5")
  = (Sample.quantity_doc (VFloat Sample.three_and_a_half), Return tt) /\
  exists old,
    get_nested_value (Sample.quantity_doc (VInt 10)) Sample.quantity_path
    = Return old /\
    get_nested_value (Sample.quantity_doc (VFloat Sample.three_and_a_half))
      Sample.quantity_path
    = Return (if is_number old
              then coerce Literal.int_of_str Literal.float_of_str (VStr "3.5")
              else VStr "3.5").
Proof.
  split; [ reflexivity | ].
  apply (get_after_set Literal.int_of_str Literal.float_of_str
           (Sample.quantity_doc (VInt 10)) Sample.quantity_path (VStr "3.5")).
  reflexivity.
Defined.

Lemma set_value_as_is_witness :
  exists d',
    Sample.set_nested_value (Sample.quantity_doc (VInt 10))
      Sample.quantity_path (VFloat Sample.three_and_a_half)
    = (d', Return tt) /\
    get_nested_value d' Sample.quantity_path
    = Return (VFloat Sample.three_and_a_half).
Proof.
  apply (set_value_as_is Literal.int_of_str Literal.float_of_str
           (Sample.quantity_doc (VInt 10)) Sample.quantity_path
           (VFloat Sample.three_and_a_half)
           [KStr "data"; KStr "meters"; KInt 0; KStr "quantity"] (VInt 10));
    try reflexivity; discriminate.
Defined.

Lemma separators_only_path_witness :
  get_nested_value Sample.meters_doc ".[]." = Return Sample.meters_doc /\
  Sample.set_nested_value Sample.meters_doc ".[]." (VStr "x")
  = (Sample.meters_doc, Raise IndexError).
Proof.
  apply (separators_only_path Literal.int_of_str Literal.float_of_str
           Sample.meters_doc ".[]." (VStr "x")).
  reflexivity.
Defined.

Lemma unreadable_last_segment_witness :
  Sample.set_nested_value Sample.meters_doc "meters[2]" (VStr "x")
  = (Sample.meters_doc, Raise IndexError).
Proof.
  apply (unreadable_last_segment Literal.int_of_str Literal.float_of_str
           Sample.meters_doc "meters[2]" (VStr "x") ["meters"] "2"
           [KStr "meters"]
           (VList [VDict [(KStr "quantity", VInt 1)];
                   VDict [(KStr "quantity", VInt 2)]])
           (KInt 2) IndexError);
    reflexivity.
Defined.

Lemma index_into_text_witness :
  get_nested_value (Sample.service_doc (VStr "compute")) "data.service[1]"
  = Return (VStr "o") /\
  Sample.set_nested_value (Sample.service_doc (VStr "compute"))
    "data.service[1]" (VStr "x")
  = (Sample.service_doc (VStr "compute"), Raise TypeError).
Proof.
  apply (index_into_text Literal.int_of_str Literal.float_of_str
           (Sample.service_doc (VStr "compute")) "data.service[1]" (VStr "x")
           ["data"; "service"] "1" [KStr "data"; KStr "service"]
           "compute" 1%N "o"%char);
    reflexivity.
Defined.

Lemma fallback_is_kept_witness :
  exists d1 d2,
    Sample.set_nested_value (Sample.quantity_doc (VInt 10))
      Sample.quantity_path (VStr "abc") = (d1, Return tt) /\
    Sample.set_nested_value d1 Sample.quantity_path (VStr "5")
    = (d2, Return tt) /\
    get_nested_value d2 Sample.quantity_path = Return (VStr "5").
Proof.
  apply (fallback_is_kept Literal.int_of_str Literal.float_of_str
           [(KStr "data",
             VDict [(KStr "meters",
                     VList [VDict [(KStr "quantity", VInt 10)]])])]
           Sample.quantity_path "abc" "5" (VInt 10));
    reflexivity.
Defined.

(** ** More about the flat view *)

Lemma flat_entry_node entries path v :
  plain (VDict entries) = true -> well_formed (VDict entries) = true ->
  In (path, v) (rendered "" (leaf_paths (VDict entries))) ->
  exists text target,
    path = KStr text /\
    address (path_keys text) = Some target /\ target <> [] /\
    node_at target (VDict entries) = Some v.
Proof.
  intros Hp Hw Hin.
  apply in_map_iff in Hin as (e & E & He). injection E as <- <-.
  pose proof (leaf_paths_good (VDict entries) Hp e He) as Hgood.
  pose proof (leaf_paths_node (VDict entries) Hp Hw e He) as Hnode.
  exists (render "" (fst e)), (map seg_key (fst e)).
  rewrite (path_keys_render (fst e) "" Hgood). simpl.
  repeat split; auto using address_segs.
  simpl in He.
  apply in_items_paths in He as (k & x & e' & _ & _ & ->). discriminate.
Qed.

(** X8.  Every entry of the flat view of a dictionary with plain keys is
    read back by [get_nested_value] at its path. *)
Theorem flat_entries_are_read entries view path v :
  plain (VDict entries) = true -> well_formed (VDict entries) = true ->
  flatten (VDict entries) = Return view ->
  In (path, v) view ->
  exists text,
    path = KStr text /\
    get_nested_value (VDict entries) text = Return v.
Proof.
  intros Hp Hw F Hin.
  rewrite (flatten_rendered entries Hp Hw) in F. injection F as <-.
  destruct (flat_entry_node entries path v Hp Hw Hin)
    as (text & target & -> & Ha & _ & Hn).
  exists text. split; auto.
  apply (node_at_get _ _ _ _ Ha Hn).
Qed.

Lemma flat_entries_are_read_witness :
  exists text,
    KStr "meters[1].quantity" = KStr text /\
    get_nested_value Sample.meters_doc text = Return (VInt 2).
Proof.
  apply (flat_entries_are_read
           [(KStr "meters",
             VList [VDict [(KStr "quantity", VInt 1)];
                    VDict [(KStr "quantity", VInt 2)]])]
           [(KStr "meters[0].quantity", VInt 1);
            (KStr "meters[1].quantity", VInt 2)]
           (KStr "meters[1].quantity") (VInt 2));
    try reflexivity.
  right. left. reflexivity.
Defined.

Section EditField.
Variable int_of_str : string -> option Z.
Variable float_of_str : string -> option float.

#[local] Abbreviation coerce := (coerce int_of_str float_of_str).
#[local] Abbreviation set_nested_value :=
  (set_nested_value int_of_str float_of_str).

(** X9.  The edit of a listed field: on a dictionary with plain keys, the
    write of any text at the path of an entry of the flat view returns, and
    the field then reads as that text, or as its number when the entry was a
    number. *)
Theorem listed_field_is_written entries view path v raw :
  plain (VDict entries) = true -> well_formed (VDict entries) = true ->
  flatten (VDict entries) = Return view ->
  In (KStr path, v) view ->
  exists d',
    set_nested_value (VDict entries) path (VStr raw) = (d', Return tt) /\
    get_nested_value d' path
    = Return (if is_number v then coerce (VStr raw) else VStr raw).
Proof.
  intros Hp Hw F Hin.
  rewrite (flatten_rendered entries Hp Hw) in F. injection F as <-.
  destruct (flat_entry_node entries (KStr path) v Hp Hw Hin)
    as (text & target & E & Ha & Ht & Hn).
  injection E as <-.
  unfold set_nested_value, get_nested_value.
  destruct (set_keys_existing int_of_str float_of_str _ _ _ _ (VStr raw)
              Ha Ht Hn) as (d' & R & Hs & _).
  exists d'. split; auto.
  apply (node_at_get _ _ _ _ Ha Hs).
Qed.
End EditField.

Lemma listed_field_is_written_witness :
  exists d',
    Sample.set_nested_value Sample.meters_doc "meters[1].quantity" (VStr "7")
    = (d', Return tt) /\
    get_nested_value d' "meters[1].quantity" = Return (VInt 7).
Proof.
  apply (listed_field_is_written Literal.int_of_str Literal.float_of_str
           [(KStr "meters",
             VList [VDict [(KStr "quantity", VInt 1)];
                    VDict [(KStr "quantity", VInt 2)]])]
           [(KStr "meters[0].quantity", VInt 1);
            (KStr "meters[1].quantity", VInt 2)]
           "meters[1].quantity" (VInt 2) "7");
    try reflexivity.
  right. left. reflexivity.
Defined.

(** * Event identifiers *)

(** ** Base 36 *)

Lemma chars_at_spec r :
  (0 <= r < 36)%Z ->
  digit36 (chars_at r) = Some r /\ upper_char (chars_at r) = chars_at r.
Proof.
  intros H.
  assert (exists n, r = Z.of_nat n /\ (n < 36)%nat) as (n & -> & Hn).
  { exists (Z.to_nat r). lia. }
  clear H.
  do 36 (destruct n as [ | n ]; [ split; reflexivity | ]).
  lia.
Qed.

Lemma value36_from_app a :
  forall acc b,
    value36_from acc (a ++ b)
    = match value36_from acc a with
      | Some x => value36_from x b
      | None => None
      end.
Proof.
  induction a as [ | c a IH ]; intros acc b; simpl; auto.
  destruct (digit36 c); auto.
Qed.

Lemma upper_app a b : upper (a ++ b) = (upper a ++ upper b)%string.
Proof. induction a as [ | c a IH ]; simpl; congruence. Qed.

(** What the loop has added in front of [result] when it ends: the
    digits of [num], most significant first. *)
Lemma to_base36_loop_spec fuel :
  forall num result,
    (0 <= num < 36 ^ Z.of_nat fuel)%Z ->
    exists digits,
      to_base36_loop fuel num result = Some (digits ++ result)%string /\
      (forall acc,
          value36_from acc digits
          = Some (acc * 36 ^ Z.of_nat (String.length digits) + num)%Z) /\
      upper digits = digits /\
      (num < 36 ^ Z.of_nat (String.length digits))%Z /\
      (num = 0%Z -> digits = EmptyString) /\
      (0 < num ->
       36 ^ (Z.of_nat (String.length digits) - 1) <= num)%Z.
Proof.
  induction fuel as [ | fuel IH ]; intros num result H.
  - assert (num = 0%Z) as -> by (simpl in H; lia).
    exists EmptyString. simpl. repeat split; auto; try lia.
    intros acc. f_equal. lia.
  - cbn [to_base36_loop].
    destruct (num =? 0)%Z eqn:E.
    + apply Z.eqb_eq in E. subst num.
      exists EmptyString. simpl. repeat split; auto; try lia.
      intros acc. f_equal. lia.
    + apply Z.eqb_neq in E.
      pose proof (Z_div_mod num 36 eq_refl) as D.
      destruct (Z.div_eucl num 36) as [q r]. destruct D as [Hnum Hr].
      assert (0 <= q < 36 ^ Z.of_nat fuel)%Z as Hq.
      { rewrite Nat2Z.inj_succ, Z.pow_succ_r in H by lia. lia. }
      destruct (IH q (String (chars_at r) result) Hq)
        as (pre & R & Hval & Hup & Hlt & Hzero & Hpos).
      destruct (chars_at_spec r Hr) as [Hd Hu].
      exists (pre ++ String (chars_at r) EmptyString)%string.
      assert (Z.of_nat (String.length
                          (pre ++ String (chars_at r) EmptyString))
              = Z.of_nat (String.length pre) + 1)%Z as Hlen
        by (rewrite string_length_app; simpl; lia).
      rewrite Hlen.
      repeat split.
      * rewrite R, string_app_assoc. reflexivity.
      * intros acc. rewrite value36_from_app, Hval.
        cbn [value36_from]. rewrite Hd.
        f_equal. rewrite Z.pow_add_r by lia.
        change (36 ^ 1)%Z with 36%Z. rewrite Hnum. ring.
      * rewrite upper_app, Hup. simpl. now rewrite Hu.
      * rewrite Z.pow_add_r by lia. change (36 ^ 1)%Z with 36%Z. lia.
      * intros ->. contradiction.
      * intros _. replace (Z.of_nat (String.length pre) + 1 - 1)%Z
          with (Z.of_nat (String.length pre)) by lia.
        destruct (Z.eq_dec q 0) as [-> | Hq0].
        -- rewrite (Hzero eq_refl). simpl. lia.
        -- assert (0 < q)%Z as Hq1 by lia. specialize (Hpos Hq1).
           assert (String.length pre <> 0)%nat as Hne.
           { intros Hl. destruct pre; try discriminate.
             simpl in Hlt. lia. }
           replace (Z.of_nat (String.length pre))
             with (Z.succ (Z.of_nat (String.length pre) - 1)) by lia.
           rewrite Z.pow_succ_r by lia. lia.
Qed.

Lemma to_base36_loop_negative fuel :
  forall num result,
    (num < 0)%Z -> to_base36_loop fuel num result = None.
Proof.
  induction fuel as [ | fuel IH ]; intros num result H;
    cbn [to_base36_loop];
    destruct (num =? 0)%Z eqn:E;
    try (apply Z.eqb_eq in E; lia); auto.
  pose proof (Z_div_mod num 36 eq_refl) as D.
  destruct (Z.div_eucl num 36) as [q r]. destruct D as [Hnum Hr].
  apply IH. lia.
Qed.

Lemma to_base36_positive fuel num :
  (0 < num < 36 ^ Z.of_nat fuel)%Z ->
  exists digits,
    to_base36 fuel num = Some digits /\
    value36 digits = Some num /\
    upper digits = digits /\
    (36 ^ (Z.of_nat (String.length digits) - 1) <= num
     < 36 ^ Z.of_nat (String.length digits))%Z.
Proof.
  intros H.
  destruct (to_base36_loop_spec fuel num EmptyString)
    as (digits & R & Hval & Hup & Hlt & _ & Hpos); [ lia | ].
  exists digits. unfold to_base36.
  rewrite R.
  assert ((digits ++ "")%string = digits) as ->.
  { clear. induction digits as [ | c s IH ]; simpl; congruence. }
  destruct digits as [ | c s ].
  - simpl in Hlt. lia.
  - repeat split; auto; try lia.
    unfold value36. rewrite Hval. reflexivity.
Qed.

Lemma substring_whole s :
  forall n, (String.length s <= n)%nat -> substring 0 n s = s.
Proof.
  induction s as [ | c s IH ]; intros n H.
  - destruct n; reflexivity.
  - destruct n as [ | n ]; simpl in H; [ lia | ].
    simpl. rewrite IH by lia. reflexivity.
Qed.

Lemma substring_length s :
  forall m n,
    (m + n <= String.length s)%nat -> String.length (substring m n s) = n.
Proof.
  induction s as [ | c s IH ]; intros m n H; simpl in H.
  - assert (m = 0 /\ n = 0)%nat as [-> ->] by lia. reflexivity.
  - destruct m as [ | m ].
    + destruct n as [ | n ]; simpl; auto.
      rewrite IH; auto. lia.
    + simpl. apply IH. lia.
Qed.

Lemma stars_length n : String.length (stars n) = n.
Proof. induction n as [ | n IH ]; simpl; congruence. Qed.

Lemma stars_get n :
  forall i, (i < n)%nat -> String.get i (stars n) = Some "*"%char.
Proof.
  induction n as [ | n IH ]; intros i H; [ lia | ].
  destruct i as [ | i ]; simpl; auto. apply IH. lia.
Qed.

Lemma string_get_app_l a b :
  forall i,
    (i < String.length a)%nat -> String.get i (a ++ b) = String.get i a.
Proof.
  induction a as [ | c a IH ]; intros i H; simpl in H; [ lia | ].
  destruct i as [ | i ]; simpl; auto. apply IH. lia.
Qed.

(** X10.  [to_base36] writes a number that is not negative in base 36:
    the loop ends, the text read back as a base-36 numeral is the number
    itself, it has no leading zero unless the number is zero (where it is
    "0"), and it is already in upper case. *)
Theorem to_base36_round_trip fuel num :
  (0 <= num < 36 ^ Z.of_nat fuel)%Z ->
  exists text,
    to_base36 fuel num = Some text /\
    value36 text = Some num /\
    upper text = text /\
    (num = 0%Z -> text = "0") /\
    ((0 < num)%Z ->
     (36 ^ (Z.of_nat (String.length text) - 1) <= num
      < 36 ^ Z.of_nat (String.length text))%Z).
Proof.
  intros H.
  destruct (Z.eq_dec num 0) as [-> | Hne].
  - exists "0". unfold to_base36.
    destruct fuel; repeat split; auto; lia.
  - destruct (to_base36_positive fuel num) as (text & R & Hv & Hu & Hl);
      [ lia | ].
    exists text. repeat split; auto; lia.
Qed.

Lemma to_base36_round_trip_witness :
  exists text,
    to_base36 8 1730000000000 = Some text /\
    value36 text = Some 1730000000000%Z /\
    upper text = text /\
    (1730000000000%Z = 0%Z -> text = "0") /\
    ((0 < 1730000000000)%Z ->
     (36 ^ (Z.of_nat (String.length text) - 1) <= 1730000000000
      < 36 ^ Z.of_nat (String.length text))%Z).
Proof.
  apply (to_base36_round_trip 8 1730000000000).
  vm_compute. split; [ intros E; discriminate E | reflexivity ].
Defined.

(** X11.  On a negative number the loop of [to_base36] never ends:
    [divmod] rounds down, so the quotient stays below zero and the test
    [while num] never fails; however many turns it is given, the function
    has not returned. *)
Theorem to_base36_negative_loops fuel num :
  (num < 0)%Z -> to_base36 fuel num = None.
Proof.
  intros H. unfold to_base36.
  rewrite to_base36_loop_negative; auto.
Qed.

Lemma to_base36_negative_loops_witness : to_base36 1000 (-1) = None.
Proof.
  apply (to_base36_negative_loops 1000 (-1)). reflexivity.
Defined.

(** X12.  [generate_event_id] at a clock reading of eight base-36 digits
    (from 36^7 ms to 36^8 ms after the epoch, the years 1972 to 2059)
    and with the ten characters drawn: the slice [[:26]] removes nothing,
    the identifier is the prefix, the eight digits of the reading and the
    ten characters, 23 characters in all, and the reading can be read
    back from the digits. *)
Theorem generate_event_id_shape fuel timestamp random_str :
  (8 <= fuel)%nat ->
  (36 ^ 7 <= timestamp < 36 ^ 8)%Z ->
  String.length random_str = 10%nat ->
  exists b36 event_id,
    generate_event_id fuel timestamp random_str = Some event_id /\
    event_id = ("01JKQ" ++ b36 ++ random_str)%string /\
    String.length b36 = 8%nat /\
    value36 b36 = Some timestamp /\
    String.length event_id = 23%nat.
Proof.
  intros Hfuel Hts Hrand.
  assert (36 ^ 8 <= 36 ^ Z.of_nat fuel)%Z as Hpow
    by (apply Z.pow_le_mono_r; lia).
  destruct (to_base36_positive fuel timestamp)
    as (b36 & R & Hv & Hu & Hlo & Hhi); [ lia | ].
  assert (String.length b36 = 8%nat) as Hlen.
  { assert (Z.of_nat (String.length b36) - 1 < 8)%Z.
    { apply (Z.pow_lt_mono_r_iff 36); lia. }
    assert (7 < Z.of_nat (String.length b36))%Z.
    { apply (Z.pow_lt_mono_r_iff 36); lia. }
    lia. }
  assert (String.length ("01JKQ" ++ b36 ++ random_str) = 23)%nat as Hall.
  { rewrite !string_length_app, Hlen, Hrand. reflexivity. }
  exists b36, ("01JKQ" ++ b36 ++ random_str)%string.
  unfold generate_event_id. rewrite R, Hu.
  rewrite substring_whole by (rewrite Hall; lia).
  auto.
Qed.

Lemma generate_event_id_shape_witness :
  exists b36 event_id,
    generate_event_id 8 1730000000000 "ABCDEFGHIJ" = Some event_id /\
    event_id = ("01JKQ" ++ b36 ++ "ABCDEFGHIJ")%string /\
    String.length b36 = 8%nat /\
    value36 b36 = Some 1730000000000%Z /\
    String.length event_id = 23%nat.
Proof.
  apply (generate_event_id_shape 8 1730000000000 "ABCDEFGHIJ").
  - apply Nat.le_refl.
  - vm_compute. split; [ intros E; discriminate E | reflexivity ].
  - reflexivity.
Defined.

(** ** The key on the screen *)

(** X13.  The two masks of the key.  For a key of more than four
    characters the message after typing and the banner show the same
    text, of the length of the key, all stars but for the last four
    characters.  For a key of four characters or fewer the message after
    typing shows stars only, and the banner, which does not test the
    length, shows the key itself. *)
Theorem api_key_masks api_key :
  ((4 < String.length api_key)%nat ->
   banner_key api_key = masked_key api_key /\
   String.length (masked_key api_key) = String.length api_key /\
   forall i,
     (i + 4 < String.length api_key)%nat ->
     String.get i (masked_key api_key) = Some "*"%char) /\
  ((String.length api_key <= 4)%nat ->
   masked_key api_key = stars (String.length api_key) /\
   banner_key api_key = api_key).
Proof.
  unfold masked_key, banner_key. split; intros H.
  - apply Nat.ltb_lt in H as E. rewrite E. apply Nat.ltb_lt in E.
    split; [ reflexivity | ]. split.
    + rewrite string_length_app, stars_length, substring_length by lia.
      lia.
    + intros i Hi.
      rewrite string_get_app_l by (rewrite stars_length; lia).
      apply stars_get. lia.
  - apply Nat.ltb_ge in H as E. rewrite E. split; [ reflexivity | ].
    replace (String.length api_key - 4)%nat with 0%nat by lia.
    simpl. now apply substring_whole.
Qed.

Lemma api_key_masks_witness :
  masked_key "abcd" = "****" /\ banner_key "abcd" = "abcd".
Proof.
  destruct (api_key_masks "abcd") as [_ H].
  apply H. simpl. lia.
Defined.

(** * The editing session *)

(** ** The numbered list *)

Lemma add_field_fields category field categories :
  Permutation (flat_map snd (add_field category field categories))
              (field :: flat_map snd categories).
Proof.
  unfold add_field.
  induction categories as [ | [c fields] categories IH ]; simpl.
  - reflexivity.
  - destruct (String.eqb category c) eqn:E; simpl.
    + rewrite <- app_assoc. simpl.
      symmetry. apply Permutation_middle.
    + rewrite IH. symmetry.
      apply (Permutation_middle fields (flat_map snd categories) field).
Qed.

Lemma group_fields_fields items :
  forall categories,
    Forall (fun e => exists s, fst e = KStr s) items ->
    exists grouped,
      group_fields items categories = Return grouped /\
      Permutation (flat_map snd grouped)
                  (flat_map snd categories ++ items).
Proof.
  induction items as [ | [path v] items IH ]; intros categories H; simpl.
  - exists categories. now rewrite app_nil_r.
  - inversion H as [ | e l [s Hs] Hrest ]; subst. simpl in Hs. subst path.
    simpl.
    destruct (IH (add_field
                    (if Text.has_char "." s
                     then hd EmptyString (Text.split "." s) else "root")
                    (KStr s, v) categories) Hrest)
      as (grouped & R & P).
    exists grouped. split; auto.
    rewrite P, add_field_fields.
    apply (Permutation_middle (flat_map snd categories) items (KStr s, v)).
Qed.

Lemma group_fields_int_path items :
  forall categories n v,
    In (KInt n, v) items ->
    group_fields items categories = Raise TypeError.
Proof.
  induction items as [ | [path w] items IH ]; intros categories n v Hin.
  - destruct Hin.
  - simpl. destruct path as [s | m]; simpl; auto.
    destruct Hin as [E | Hin]; [ discriminate E | ].
    now apply (IH _ n v).
Qed.

Lemma insert_category_perm c categories :
  Permutation (insert_category c categories) (c :: categories).
Proof.
  induction categories as [ | c' rest IH ]; simpl; auto.
  destruct (String.leb (fst c) (fst c')); auto.
  rewrite IH. apply perm_swap.
Qed.

Lemma sorted_perm categories : Permutation (sorted categories) categories.
Proof.
  induction categories as [ | c rest IH ]; simpl; auto.
  rewrite insert_category_perm. now constructor.
Qed.

Lemma number_fields_spec fields :
  forall field_num,
    map fst (number_fields field_num fields)
    = seq field_num (length fields) /\
    map snd (number_fields field_num fields) = map fst fields.
Proof.
  induction fields as [ | [path v] fields IH ]; intros field_num; simpl.
  - split; reflexivity.
  - destruct (IH (S field_num)) as [A B]. rewrite A, B. split; reflexivity.
Qed.

Lemma path_to_num_spec (flat : flat_view) :
  Forall (fun e => exists s, fst e = KStr s) flat ->
  exists numbered,
    path_to_num flat = Return numbered /\
    map fst numbered = seq 1 (length flat) /\
    Permutation (map snd numbered) (map fst flat).
Proof.
  intros H.
  destruct (group_fields_fields flat [] H) as (grouped & R & P).
  simpl in P.
  assert (Permutation (flat_map snd (sorted grouped)) flat) as Q.
  { rewrite <- P. apply Permutation_flat_map, sorted_perm. }
  unfold path_to_num. rewrite R. simpl.
  destruct (number_fields_spec (flat_map snd (sorted grouped)) 1) as [A B].
  eexists. split; [ reflexivity | ]. split.
  - rewrite A. f_equal. now apply Permutation_length.
  - rewrite B. now apply Permutation_map.
Qed.

(** X14.  The numbered list of [edit_event_value] shows every field of
    the flat view once: when all paths are strings the numbers given are
    1, 2, ... up to the number of fields, and the paths behind them are a
    permutation of the paths of the flat view. *)
Theorem every_field_is_numbered (flat : flat_view) :
  Forall (fun e => exists s, fst e = KStr s) flat ->
  exists numbered,
    path_to_num flat = Return numbered /\
    map fst numbered = seq 1 (length flat) /\
    Permutation (map snd numbered) (map fst flat).
Proof. apply path_to_num_spec. Qed.

Lemma every_field_is_numbered_witness :
  exists numbered,
    path_to_num [(KStr "id", VStr "e1");
                 (KStr "data.service", VStr "compute");
                 (KStr "time", VStr "now");
                 (KStr "data.meters[0].quantity", VInt 1)]
    = Return numbered /\
    map fst numbered = seq 1 4 /\
    Permutation (map snd numbered)
      [KStr "id"; KStr "data.service"; KStr "time";
       KStr "data.meters[0].quantity"].
Proof.
  apply (every_field_is_numbered
           [(KStr "id", VStr "e1");
            (KStr "data.service", VStr "compute");
            (KStr "time", VStr "now");
            (KStr "data.meters[0].quantity", VInt 1)]).
  repeat constructor; simpl; eexists; reflexivity.
Defined.

(** X15.  A path that is an integer, as [flatten_dict] gives for an
    integer key at the top of the document, stops the list: the test
    ['.' in path] raises TypeError. *)
Theorem integer_path_stops_list (flat : flat_view) n v :
  In (KInt n, v) flat -> path_to_num flat = Raise TypeError.
Proof.
  intros Hin. unfold path_to_num.
  now rewrite (group_fields_int_path flat [] n v Hin).
Qed.

Lemma integer_path_stops_list_witness :
  flatten (VDict [(KStr "id", VStr "e1"); (KInt 7, VInt 1)])
  = Return [(KStr "id", VStr "e1"); (KInt 7, VInt 1)] /\
  path_to_num [(KStr "id", VStr "e1"); (KInt 7, VInt 1)] = Raise TypeError.
Proof.
  split; [ reflexivity | ].
  apply (integer_path_stops_list
           [(KStr "id", VStr "e1"); (KInt 7, VInt 1)] 7%N (VInt 1)).
  right. left. reflexivity.
Defined.

(** ** A template under the editor *)

Section Templates.
Variable int_of_str : string -> option Z.
Variable float_of_str : string -> option float.

(** X16.  The event of [create_ai_chat_usage], whatever the provider, the
    identifiers drawn and the readings of the clock: its keys are plain
    and it is well formed, so its flat view has one entry for each of its
    29 leaves, the editing session numbers them 1 to 29, and writing any
    entry back leaves the event as it is. *)
Theorem ai_chat_template_is_editable
  provider event_id time usage_event_id usage_start usage_end :
  let event :=
    create_ai_chat_usage provider event_id time usage_event_id
      usage_start usage_end in
  plain event = true /\
  well_formed event = true /\
  exists view numbered,
    flatten event = Return view /\
    length view = 29%nat /\
    path_to_num view = Return numbered /\
    map fst numbered = seq 1 29 /\
    forall path v,
      In (KStr path, v) view ->
      set_nested_value int_of_str float_of_str event path v
      = (event, Return tt).
Proof.
  intros event.
  assert (plain event = true) as Hp by reflexivity.
  assert (well_formed event = true) as Hw by reflexivity.
  split; [ exact Hp | ]. split; [ exact Hw | ].
  exists (rendered "" (leaf_paths event)).
  assert (Forall (fun e : key * value => exists s, fst e = KStr s)
            (rendered "" (leaf_paths event))) as Hstr.
  { apply Forall_forall. intros e Hin.
    apply in_map_iff in Hin as (e' & <- & _). simpl. eauto. }
  assert (length (rendered "" (leaf_paths event)) = 29%nat) as Hlen
    by reflexivity.
  destruct (path_to_num_spec _ Hstr) as (numbered & R & Hnum & _).
  exists numbered.
  split; [ now apply flatten_rendered | ].
  split; [ exact Hlen | ].
  split; [ exact R | ].
  split; [ now rewrite Hnum, Hlen | ].
  intros path v Hin.
  apply in_map_iff in Hin as (e & E & He).
  injection E as <- <-.
  now apply set_entry_back.
Qed.
End Templates.
